(** * UniRBAC core: permission matcher, role resolver and the [can] pipeline

    A shallow embedding of [packages/core/src/permissions/index.ts] and
    [packages/core/src/engine/RBACEngine.ts] (together with the earlier
    engine that resolves roles through [resolveRoles]), and the
    properties of the decision pipeline proved about it.

    Modelling conventions.
    - A JavaScript string is a [string]; [':'] is an ASCII character, so
      splitting on it and comparing with [===] agree with the UTF-16 view.
    - [Map<string, V>] (only [get] and [set] are used) is a
      [gmap string V].
    - [Set<string>] that is only tested with [has] is a [gset string];
      the permission set, which is spread into an array, is the list of
      its elements in insertion order.
    - [T | undefined] is [option T]. *)

From Stdlib Require Import String Ascii ZArith List Lia.
From stdpp Require Import base option list gmap strings sorting.

Local Open Scope string_scope.
Local Open Scope list_scope.

Set Warnings "-clear-no-such-hyp".

(** ** Strings *)

(** [s.split(sep)] for a one-character separator: the pieces between the
    occurrences of [sep]; never the empty array ([""] splits to [[""]]). *)
Fixpoint split (sep : ascii) (s : string) : list string :=
  match s with
  | EmptyString => [EmptyString]
  | String c s' =>
      if Ascii.eqb c sep then EmptyString :: split sep s'
      else match split sep s' with
           | part :: parts => String c part :: parts
           | [] => [String c EmptyString]
           end
  end.

(** [parts.join(sep)], the inverse of [split]. *)
Fixpoint join (sep : ascii) (parts : list string) : string :=
  match parts with
  | [] => EmptyString
  | [part] => part
  | part :: parts' => part +:+ String sep (join sep parts')
  end.

(** The character [sep] does not occur in [s]. *)
Fixpoint free_of (sep : ascii) (s : string) : bool :=
  match s with
  | EmptyString => true
  | String c s' => negb (Ascii.eqb c sep) && free_of sep s'
  end.

(** ** JavaScript truthiness, as far as the matcher needs it *)

(** An array is an object: always truthy, even when empty. *)
Definition truthy_array {A} (xs : list A) : bool := true.

(** [a || b] on arrays. *)
Definition or_array {A} (a b : list A) : list A :=
  if truthy_array a then a else b.

(** [!v] for [v : string | undefined]: [undefined] and [""] are falsy. *)
Definition is_falsy (v : option string) : bool :=
  match v with
  | None => true
  | Some s => String.eqb s ""
  end.

(** ** Permission.match *)

Module Permission.

(** The [for] loop of [match]: [n] iterations remain, the next one at
    index [i]; after the last iteration the lengths are compared. *)
Fixpoint match_for (patternParts permissionParts : list string)
    (n i : nat) : bool :=
  match n with
  | O => Nat.eqb (length permissionParts) (length patternParts)
  | S n' =>
      let patternPart := patternParts !! i in
      let permissionPart := permissionParts !! i in
      if bool_decide (patternPart = Some "**") then true
      else if bool_decide (patternPart = Some "*") then
        match_for patternParts permissionParts n' (S i)
      else if is_falsy permissionPart then false
      else if bool_decide (patternPart ≠ permissionPart) then false
      else match_for patternParts permissionParts n' (S i)
  end.

Definition match_ (pattern permission : string) : bool :=
  if String.eqb pattern permission then true
  else
    let patternParts := or_array (split ":" pattern) (split "." pattern) in
    let permissionParts :=
      or_array (split ":" permission) (split "." permission) in
    match_for patternParts permissionParts (length patternParts) 0.

End Permission.

(** ** Data model *)

(** [unknown]: the values stored in attributes and in a context; the
    engine never inspects them. *)
Inductive Value : Type :=
| VUndefined
| VNull
| VBool (b : bool)
| VNumber (n : Z)
| VString (s : string).

Module Role.
Record t : Type := mk {
  name : string;
  level : Z;
  permissions : list string;
  inherits : option (list string);
  denies : option (list string)
}.
End Role.

Module Subject.
Record t : Type := mk {
  id : string;
  roles : list string;
  permissions : option (list string);
  attributes : option (gmap string Value)
}.
End Subject.

Abbreviation AuthorizationContext := (gmap string Value).

Record PolicyArgs : Type := mkArgs {
  subject : Subject.t;
  context : AuthorizationContext
}.

(** How a call of a policy predicate ends, after awaiting it: with its
    boolean, or by throwing (a rejected promise is the same failure). *)
Inductive PolicyResult : Type :=
| Returns (b : bool)
| Throws (err : string).

Abbreviation PolicyFn := (PolicyArgs -> PolicyResult).

Record Authorization : Type := mkAuth {
  allowed : bool;
  reason : option string;
  permission : string
}.

(** ** Set<PermissionName>, in insertion order *)

Definition Set_add (s : list string) (x : string) : list string :=
  if bool_decide (x ∈ s) then s else s ++ [x].

(** [xs.forEach(x => s.add(x))] *)
Definition Set_addAll (s : list string) (xs : list string) : list string :=
  foldl Set_add s xs.

(** [new Set(xs)]; [new Set(undefined)] is the empty set. *)
Definition Set_new (xs : option (list string)) : list string :=
  Set_addAll [] (default [] xs).

(** [xs.forEach(f)] for a callback that threads a state and may run out
    of fuel. *)
Fixpoint forEach {A S : Type} (f : A -> S -> option S) (xs : list A)
    (st : S) : option S :=
  match xs with
  | [] => Some st
  | x :: xs' =>
      match f x st with
      | Some st' => forEach f xs' st'
      | None => None
      end
  end.

(** ** RBACEngine.getPermissions *)

(** The variables the closure [visited] captures. [contributed] is a
    ghost: the names of the roles whose permissions have been added to
    [prms], in the order in which that happened. *)
Record Walk : Type := mkWalk {
  prms : list string;
  visitedRoles : gset string;
  contributed : list string
}.

Definition inherited (role : Role.t) : list string :=
  default [] (Role.inherits role).

(** The closure [visited]; [None] when the recursion is deeper than
    [fuel]. *)
Fixpoint visited (roles : gmap string Role.t) (fuel : nat)
    (roleName : string) (w : Walk) : option Walk :=
  match fuel with
  | O => None
  | S fuel' =>
      if bool_decide (roleName ∈ visitedRoles w) then Some w
      else
        let w1 := mkWalk (prms w) ({[roleName]} ∪ visitedRoles w)
                    (contributed w) in
        match roles !! roleName with
        | Some role =>
            let w2 := mkWalk (Set_addAll (prms w1) (Role.permissions role))
                        (visitedRoles w1) (contributed w1 ++ [roleName]) in
            forEach (visited roles fuel') (inherited role) w2
        | None => Some w1
        end
  end.

Definition walkRoles (fuel : nat) (roles : gmap string Role.t)
    (subject : Subject.t) : option Walk :=
  forEach (visited roles fuel) (Subject.roles subject)
    (mkWalk (Set_new (Subject.permissions subject)) ∅ []).

(** The recursion enters a role only after adding its name to
    [visitedRoles], so it is never deeper than the number of registered
    roles plus one. *)
Definition getPermissions (roles : gmap string Role.t)
    (subject : Subject.t) : option (list string) :=
  prms <$> walkRoles (S (size roles)) roles subject.

(** ** The earlier engine: resolvePermissions and resolveRoles *)

Module Alt.

Record Walk : Type := mkWalk {
  visited : gset string;
  roles : list Role.t
}.

Fixpoint visit (registry : gmap string Role.t) (fuel : nat)
    (name : string) (w : Walk) : option Walk :=
  match fuel with
  | O => None
  | S fuel' =>
      if bool_decide (name ∈ visited w) then Some w
      else
        let w1 := mkWalk ({[name]} ∪ visited w) (roles w) in
        match registry !! name with
        | None => Some w1
        | Some role =>
            match forEach (visit registry fuel') (inherited role) w1 with
            | Some w2 => Some (mkWalk (visited w2) (roles w2 ++ [role]))
            | None => None
            end
        end
  end.

(** [roles.sort((a, b) => b.level - a.level)]: a stable sort; [a] stays
    before [b] unless the comparator is positive. *)
Fixpoint insert_by_level (a : Role.t) (sorted : list Role.t) : list Role.t :=
  match sorted with
  | [] => [a]
  | b :: rest =>
      if (0 <? Role.level b - Role.level a)%Z then b :: insert_by_level a rest
      else a :: b :: rest
  end.

Definition sort_by_level (rs : list Role.t) : list Role.t :=
  foldr insert_by_level [] rs.

Definition resolveRoles (registry : gmap string Role.t)
    (roleNames : list string) : option (list Role.t) :=
  (fun w => sort_by_level (roles w)) <$>
    forEach (visit registry (S (size registry))) roleNames (mkWalk ∅ []).

Definition resolvePermissions (registry : gmap string Role.t)
    (subject : Subject.t) : option (list string) :=
  let prms := Set_new (Subject.permissions subject) in
  match resolveRoles registry (Subject.roles subject) with
  | Some resolvedRoles =>
      let prms :=
        foldl (fun s role => Set_addAll s (Role.permissions role))
          prms resolvedRoles in
      Some (Set_addAll prms (default [] (Subject.permissions subject)))
  | None => None
  end.

End Alt.

(** ** The engine and the effects of its methods *)

Record RBACEngine : Type := mkEngine {
  roles : gmap string Role.t;
  policies : gmap string PolicyFn
}.

(** What a method runs in: the engine it may read and write, and the
    record of the policy predicates it has called (ghost). *)
Record World : Type := mkWorld {
  engine : RBACEngine;
  calls : list (string * PolicyArgs)
}.

(** How a method ends: its promise resolves, or it rejects, or the model
    ran out of fuel. *)
Inductive Completion (A : Type) : Type :=
| Resolved (a : A)
| Rejected (err : string)
| Diverged.
Arguments Resolved {A} a.
Arguments Rejected {A} err.
Arguments Diverged {A}.

Definition Eff (A : Type) : Type := World -> Completion A * World.

Definition ret {A} (a : A) : Eff A := fun w => (Resolved a, w).

Definition bind {A B} (m : Eff A) (k : A -> Eff B) : Eff B :=
  fun w =>
    match m w with
    | (Resolved a, w') => k a w'
    | (Rejected err, w') => (Rejected err, w')
    | (Diverged, w') => (Diverged, w')
    end.

Notation "'let*' x ':=' m 'in' k" := (bind m (fun x => k))
  (at level 10, x name, m at level 100, k at level 200).

(** Read a field of [this]. *)
Definition this {A} (field : RBACEngine -> A) : Eff A :=
  fun w => (Resolved (field (engine w)), w).

(** Assign to [this]. *)
Definition update (f : RBACEngine -> RBACEngine) : Eff unit :=
  fun w => (Resolved tt, mkWorld (f (engine w)) (calls w)).

Definition terminating {A} (o : option A) : Eff A :=
  fun w => (match o with Some a => Resolved a | None => Diverged end, w).

(** The world after one more call of the predicate stored under [key]. *)
Definition called (w : World) (key : string) (args : PolicyArgs) : World :=
  mkWorld (engine w) (calls w ++ [(key, args)]).

(** [await policy(args)], for the predicate stored under [key]. *)
Definition await_policy (key : string) (policy : PolicyFn)
    (args : PolicyArgs) : Eff bool :=
  fun w =>
    match policy args with
    | Returns b => (Resolved b, called w key args)
    | Throws err => (Rejected err, called w key args)
    end.

Definition addRole (role : Role.t) : Eff unit :=
  update (fun e => mkEngine (<[Role.name role := role]> (roles e)) (policies e)).

Definition addPolicy (permission : string) (policyCallback : PolicyFn)
    : Eff unit :=
  update (fun e =>
    mkEngine (roles e) (<[permission := policyCallback]> (policies e))).

Definition not_found : string :=
  "Permission not found in subject roles/permissions".
Definition denied_by_policy : string := "Access denied by policy".

(** [can], for either engine: the two differ only in the resolver called
    on the first line. A missing [context] argument defaults to [{}]. *)
Definition can_with
    (resolver : gmap string Role.t -> Subject.t -> option (list string))
    (subject : Subject.t) (permission : string)
    (context : option AuthorizationContext) : Eff Authorization :=
  let context := default ∅ context in
  let* registry := this roles in
  let* permissions := terminating (resolver registry subject) in
  let matchedPermission :=
    existsb (fun perm => Permission.match_ perm permission) permissions in
  if negb matchedPermission then
    ret (mkAuth false (Some not_found) permission)
  else
    let* policy := this (fun e => policies e !! permission) in
    match policy with
    | Some policy =>
        let* ok := await_policy permission policy (mkArgs subject context) in
        if ok then ret (mkAuth true None permission)
        else ret (mkAuth false (Some denied_by_policy) permission)
    | None => ret (mkAuth true None permission)
    end.

Definition can := can_with getPermissions.

Module AltEngine.
Definition can := can_with Alt.resolvePermissions.
End AltEngine.

(** ** The engine with the objects it shares with its caller *)

Module Shared.

(** A subject is an object of the caller, handed to [can] and on to the
    predicate by reference; a predicate is a function of the caller, and
    may write whatever it can reach. [Memory] is what the two sides
    share: the caller's subjects by reference, and the two registries.
    The policy registry holds each predicate by its index in [code], the
    table of the caller's functions. *)
Record Memory : Type := mkMemory {
  subjects : gmap nat Subject.t;
  roles : gmap string Role.t;
  policies : gmap string nat
}.

(** A predicate: from the reference of the subject, the context and the
    memory, to how the call ends and the memory it leaves. *)
Abbreviation Callback :=
  (nat -> AuthorizationContext -> Memory -> PolicyResult * Memory).

Definition addRole (role : Role.t) (m : Memory) : Memory :=
  mkMemory (subjects m) (<[Role.name role := role]> (roles m)) (policies m).

Definition addPolicy (permission : string) (policyCallback : nat)
    (m : Memory) : Memory :=
  mkMemory (subjects m) (roles m)
    (<[permission := policyCallback]> (policies m)).

(** [can]: reading a field of a reference that holds no object throws a
    TypeError, which rejects the promise. *)
Definition can (code : nat -> Callback) (subject : nat) (permission : string)
    (context : option AuthorizationContext) (m : Memory)
    : Completion Authorization * Memory :=
  let context := default ∅ context in
  match subjects m !! subject with
  | None => (Rejected "TypeError", m)
  | Some held =>
      match getPermissions (roles m) held with
      | None => (Diverged, m)
      | Some permissions =>
          let matchedPermission :=
            existsb (fun perm => Permission.match_ perm permission)
              permissions in
          if negb matchedPermission then
            (Resolved (mkAuth false (Some not_found) permission), m)
          else
            match policies m !! permission with
            | Some policy =>
                match code policy subject context m with
                | (Returns true, m') =>
                    (Resolved (mkAuth true None permission), m')
                | (Returns false, m') =>
                    (Resolved (mkAuth false (Some denied_by_policy) permission),
                     m')
                | (Throws err, m') => (Rejected err, m')
                end
            | None => (Resolved (mkAuth true None permission), m)
            end
      end
  end.

End Shared.

(** ** The matcher, by recursion on the segments *)

(** The loop once the permission has run out of segments: only [*]
    segments up to a [**] can still succeed. *)
Fixpoint beyond (ps : list string) : bool :=
  match ps with
  | [] => false
  | p :: ps' =>
      if String.eqb p "**" then true
      else if String.eqb p "*" then beyond ps'
      else false
  end.

(** The loop over the pattern segments [ps] still to come, with the
    permission segments [qs] at the same indices. *)
Fixpoint walk (ps qs : list string) : bool :=
  match ps with
  | [] => match qs with [] => true | _ :: _ => false end
  | p :: ps' =>
      if String.eqb p "**" then true
      else if String.eqb p "*" then
        match qs with
        | [] => beyond ps'
        | _ :: qs' => walk ps' qs'
        end
      else
        match qs with
        | [] => false
        | q :: qs' =>
            if String.eqb q "" then false
            else if String.eqb p q then walk ps' qs'
            else false
        end
  end.

(** The matcher as the specification words it: literals equal, [*] for
    exactly one segment, [**] for all the rest, equal counts otherwise. *)
Fixpoint claimed_segments (ps qs : list string) : bool :=
  match ps with
  | [] => match qs with [] => true | _ :: _ => false end
  | p :: ps' =>
      if String.eqb p "**" then true
      else
        match qs with
        | [] => false
        | q :: qs' =>
            if String.eqb p "*" then claimed_segments ps' qs'
            else String.eqb p q && claimed_segments ps' qs'
        end
  end.

Definition claimed_match (pattern permission : string) : bool :=
  claimed_segments (split ":" pattern) (split ":" permission).

(** The same, except that a [*] does not ask for a segment to be there:
    past the end of the permission it is passed over, and a later [**]
    still ends the comparison with success. *)
Fixpoint passing_segments (ps qs : list string) : bool :=
  match ps with
  | [] => match qs with [] => true | _ :: _ => false end
  | p :: ps' =>
      if String.eqb p "**" then true
      else if String.eqb p "*" then
        match qs with
        | [] => beyond ps'
        | _ :: qs' => passing_segments ps' qs'
        end
      else
        match qs with
        | [] => false
        | q :: qs' => String.eqb p q && passing_segments ps' qs'
        end
  end.

Definition passing_match (pattern permission : string) : bool :=
  passing_segments (split ":" pattern) (split ":" permission).

Definition nonempty (part : string) : bool := negb (String.eqb part "").

(** No segment of [s] is the empty string. *)
Definition no_empty_segment (s : string) : bool :=
  forallb nonempty (split ":" s).

(** ** The effective permission set, as the specification describes it *)

(** The registered role [n] names [m] in its inherits list. *)
Definition inherits_edge (roles : gmap string Role.t) (n m : string) : Prop :=
  exists r, roles !! n = Some r /\ m ∈ inherited r.

(** The role names reached from [roots] through inherits lists. *)
Inductive reachable (roles : gmap string Role.t) (roots : list string)
    : string -> Prop :=
| reachable_root n : n ∈ roots -> reachable roles roots n
| reachable_step n m :
    reachable roles roots n -> inherits_edge roles n m ->
    reachable roles roots m.

(** The union of the subject's direct permissions and of the permissions
    of every registered role reached from the subject's roles. *)
Definition effective (roles : gmap string Role.t) (subject : Subject.t)
    (p : string) : Prop :=
  p ∈ default [] (Subject.permissions subject) \/
  exists n r, reachable roles (Subject.roles subject) n /\
              roles !! n = Some r /\ p ∈ Role.permissions r.

(** The requested permission is covered: some pattern of the effective
    set matches it. *)
Definition covered (roles : gmap string Role.t) (subject : Subject.t)
    (permission : string) : Prop :=
  exists pattern, effective roles subject pattern /\
                  Permission.match_ pattern permission = true.

(** ** Registries and subjects that differ in unknown or repeated names *)

(** The names of [names] that are registered. *)
Definition known (roles : gmap string Role.t) (names : list string)
    : list string :=
  filter (fun n => is_Some (roles !! n)) names.

(** The role with the unregistered names dropped from its inherits list. *)
Definition forget_unknown (roles : gmap string Role.t) (r : Role.t) : Role.t :=
  Role.mk (Role.name r) (Role.level r) (Role.permissions r)
    (Some (known roles (inherited r))) (Role.denies r).

Definition pruned (roles : gmap string Role.t) : gmap string Role.t :=
  forget_unknown roles <$> roles.

Definition with_roles (subject : Subject.t) (names : list string) : Subject.t :=
  Subject.mk (Subject.id subject) names (Subject.permissions subject)
    (Subject.attributes subject).

(** Two lists that name the same roles, in any order and any number of
    times. *)
Definition same_names (l1 l2 : list string) : Prop :=
  forall n, n ∈ l1 <-> n ∈ l2.

(** Two roles with the same permissions whose inherits lists name the
    same roles; two registries with such roles under the same names. *)
Definition same_role (r1 r2 : Role.t) : Prop :=
  Role.permissions r1 = Role.permissions r2 /\
  same_names (inherited r1) (inherited r2).

Definition same_registry (roles1 roles2 : gmap string Role.t) : Prop :=
  forall n, option_Forall2 same_role (roles1 !! n) (roles2 !! n).

(** ** What a walk over the roles has done *)

(** The registered roles the walk has not entered yet: what is left of
    them bounds the depth of the recursion. *)
Definition unvisited (roles : gmap string Role.t) (w : Walk) : nat :=
  size (dom roles ∖ visitedRoles w).

(** What a stretch of the walk from [w] to [w'], started from the names
    [srcs], has done. *)
Record walked (roles : gmap string Role.t) (srcs : list string)
    (w w' : Walk) : Prop := {
  walked_mono : visitedRoles w ⊆ visitedRoles w';
  walked_sound : forall n,
    n ∈ visitedRoles w' -> n ∉ visitedRoles w -> reachable roles srcs n;
  walked_closed : forall n m,
    n ∈ visitedRoles w' -> n ∉ visitedRoles w -> inherits_edge roles n m ->
    m ∈ visitedRoles w';
  walked_prms : forall p,
    p ∈ prms w' <->
    (p ∈ prms w \/
     exists n r, n ∈ visitedRoles w' /\ (n ∉ visitedRoles w) /\
                 roles !! n = Some r /\ p ∈ Role.permissions r);
  walked_contributed : exists new,
    contributed w' = contributed w ++ new /\ NoDup new /\
    forall n, n ∈ new <->
      (n ∈ visitedRoles w' /\ (n ∉ visitedRoles w) /\ is_Some (roles !! n));
  walked_NoDup : NoDup (prms w) -> NoDup (prms w')
}.

(** The walk of [resolveRoles] from [wa] to [wa'] has visited what the
    walk of [getPermissions] from [w] to [w'] has, and has collected the
    registered roles among the newly visited names. *)
Record agrees (registry : gmap string Role.t) (w w' : Walk)
    (wa wa' : Alt.Walk) : Prop := {
  agrees_visited : Alt.visited wa' = visitedRoles w';
  agrees_mono : visitedRoles w ⊆ visitedRoles w';
  agrees_roles : exists new,
    Alt.roles wa' = Alt.roles wa ++ new /\
    forall r, r ∈ new <->
      exists n, n ∈ visitedRoles w' /\ (n ∉ visitedRoles w) /\
                registry !! n = Some r
}.

(** ** Kinds of pattern segments *)

Definition is_wildcard (part : string) : bool :=
  String.eqb part "*" || String.eqb part "**".

(** A pattern none of whose segments is a wildcard. *)
Definition literal_pattern (pattern : string) : bool :=
  forallb (fun part => negb (is_wildcard part)) (split ":" pattern).

(** A segment that is a literal and not empty. *)
Definition plain (part : string) : bool :=
  nonempty part && negb (is_wildcard part).

(** ** Calls on a new engine *)

(** [new RBACEngine()]: both registries start as empty maps. *)
Definition new_RBACEngine : RBACEngine := mkEngine ∅ ∅.




(** The registry with the level and the denies list of every role
    replaced. *)
Definition with_levels (newLevel : Role.t -> Z)
    (newDenies : Role.t -> option (list string))
    (registry : gmap string Role.t) : gmap string Role.t :=
  (fun r => Role.mk (Role.name r) (newLevel r) (Role.permissions r)
              (Role.inherits r) (newDenies r)) <$> registry.

(** [resolvePermissions] without its last line, the second pass over
    [subject.permissions]. *)
Definition resolvePermissions_once (registry : gmap string Role.t)
    (subject : Subject.t) : option (list string) :=
  foldl (fun s role => Set_addAll s (Role.permissions role))
    (Set_new (Subject.permissions subject))
  <$> Alt.resolveRoles registry (Subject.roles subject).

(** The order [resolveRoles] returns the roles in: no role before one of
    a higher level. *)
Definition not_below (a b : Role.t) : Prop := (Role.level b <= Role.level a)%Z.

(** What the walk of [resolveRoles] from [wa] to [wa'] has collected: the
    roles registered under the names it has newly visited, one for each
    such name. *)
Record collected (registry : gmap string Role.t) (wa wa' : Alt.Walk)
    : Prop := {
  collected_mono : Alt.visited wa ⊆ Alt.visited wa';
  collected_roles : exists names new,
    Alt.roles wa' = Alt.roles wa ++ new /\
    Forall2 (fun n r => registry !! n = Some r) names new /\
    NoDup names /\
    forall n, n ∈ names <->
      (n ∈ Alt.visited wa' /\ (n ∉ Alt.visited wa) /\ is_Some (registry !! n))
}.

(** ** The test registries *)

Definition roleA : Role.t := Role.mk "roleA" 10 ["perm:a"] (Some ["roleB"]) None.
Definition roleB : Role.t := Role.mk "roleB" 10 ["perm:b"] (Some ["roleA"]) None.
Definition cyclic : gmap string Role.t :=
  <["roleB" := roleB]> (<["roleA" := roleA]> ∅).
Definition subjectA : Subject.t := Subject.mk "1" ["roleA"] (Some []) None.

(** A diamond: [top] inherits [left] and [right], which both inherit
    [base]. *)
Definition diamond : gmap string Role.t :=
  <["top" := Role.mk "top" 40 ["t"] (Some ["left"; "right"]) None]>
  (<["left" := Role.mk "left" 30 ["l"] (Some ["base"]) None]>
  (<["right" := Role.mk "right" 20 ["r"] (Some ["base"]) None]>
  (<["base" := Role.mk "base" 10 ["b"] None None]> ∅))).

(** The registry and the policies of the [addPolicy] tests. *)
Definition user : Role.t := Role.mk "user" 10 ["post:edit"] None None.
Definition user1 : Subject.t := Subject.mk "user-1" ["user"] (Some []) None.

Definition isAuthor : PolicyFn := fun args =>
  match context args !! "authorId" with
  | Some (VString authorId) =>
      Returns (String.eqb authorId (Subject.id (subject args)))
  | _ => Returns false
  end.
Definition always : PolicyFn := fun _ => Returns true.
Definition failing : PolicyFn := fun _ => Throws "lookup failed".

Definition posts : RBACEngine :=
  mkEngine (<["user" := user]> ∅)
    (<["post:delete" := always]> (<["post:edit" := isAuthor]> ∅)).

Definition authoredBy (id : string) : option AuthorizationContext :=
  Some (<["authorId" := VString id]> ∅).

(** The registry of the role-level tests, and a predicate that looks at
    the first role of the subject. *)
Definition editor : Role.t := Role.mk "editor" 50 ["post.update"] None None.
Definition viewer : Role.t := Role.mk "viewer" 10 ["post.read"] None None.
Definition primaryEditor : PolicyFn := fun args =>
  match Subject.roles (subject args) with
  | first :: _ => Returns (String.eqb first "editor")
  | [] => Returns false
  end.
Definition levels : RBACEngine :=
  mkEngine (<["viewer" := viewer]> (<["editor" := editor]> ∅))
    (<["post.update" := primaryEditor]> ∅).
Definition editorFirst : Subject.t :=
  Subject.mk "1" ["editor"; "viewer"] (Some []) None.
Definition viewerFirst : Subject.t :=
  Subject.mk "1" ["viewer"; "editor"] (Some []) None.

(** The registry of the [can] tests, with the inherits list of the
    editor left open. *)
Definition postViewer : Role.t :=
  Role.mk "viewer" 10 ["post:read"; "comment:read"] None None.
Definition postEditor (inherits : list string) : Role.t :=
  Role.mk "editor" 50 ["post:write"; "post:edit"] (Some inherits) None.
Definition blog (inherits : list string) : RBACEngine :=
  mkEngine (<["editor" := postEditor inherits]> (<["viewer" := postViewer]> ∅)) ∅.
Definition holding (names : list string) : Subject.t :=
  Subject.mk "1" names (Some []) None.

(** A predicate that writes: it puts the role "admin" in front of the
    subject's roles and allows,
    [({ subject }) => { subject.roles.unshift('admin'); return true; }]. *)
Definition promote : Shared.Callback := fun subject _ m =>
  match Shared.subjects m !! subject with
  | Some held =>
      (Returns true,
       Shared.mkMemory
         (<[subject := with_roles held ("admin" :: Subject.roles held)]>
            (Shared.subjects m))
         (Shared.roles m) (Shared.policies m))
  | None => (Throws "TypeError", m)
  end.

(** A table of the caller's functions: [promote] and, at every other
    index, a predicate that allows and writes nothing. *)
Definition callbacks (index : nat) : Shared.Callback :=
  match index with
  | O => promote
  | S _ => fun _ _ m => (Returns true, m)
  end.

(** [user1] at reference 0, the role [user], and a predicate for
    "post:edit". *)
Definition office (policy : nat) : Shared.Memory :=
  Shared.mkMemory (<[0%nat := user1]> ∅) (<["user" := user]> ∅)
    (<["post:edit" := policy]> ∅).

(** * Properties *)

(** ** The tests, evaluated *)

Example cycle_ex : getPermissions cyclic subjectA = Some ["perm:a"; "perm:b"].
Proof. vm_compute. reflexivity. Qed.

(** The matches and mismatches the specification lists. *)
Example match_listed :
  Permission.match_ "user:*" "user:read" = true /\
  Permission.match_ "user:*" "user:read:all" = false /\
  Permission.match_ "user:**" "user:read:all" = true /\
  Permission.match_ "**" "anything:at:all" = true /\
  Permission.match_ "admin:**" "admin" = true /\
  Permission.match_ "User:Read" "user:read" = false /\
  Permission.match_ "user:*:details" "user:profile" = false /\
  Permission.match_ "user.read" "user.read" = true.
Proof. repeat split; reflexivity. Qed.

Example diamond_ex :
  contributed <$> walkRoles 5 diamond (Subject.mk "1" ["top"] None None)
  = Some ["top"; "left"; "base"; "right"].
Proof. vm_compute. reflexivity. Qed.

Example cycle_alt_ex :
  Alt.resolvePermissions cyclic subjectA = Some ["perm:b"; "perm:a"].
Proof. vm_compute. reflexivity. Qed.
Example cycle_can_ex :
  fst (can subjectA "perm:b" None (mkWorld (mkEngine cyclic ∅) [])) =
  Resolved (mkAuth true None "perm:b").
Proof. vm_compute. reflexivity. Qed.

(** ** Strings: split and join *)

Lemma split_nonempty sep s : split sep s <> [].
Proof. destruct s as [|c s]; simpl; [done|]. destruct (Ascii.eqb c sep); [done|]. by destruct (split sep s). Qed.

Lemma join_cons sep part parts :
  parts <> [] -> join sep (part :: parts) = part +:+ String sep (join sep parts).
Proof. by destruct parts. Qed.

Lemma join_split sep s : join sep (split sep s) = s.
Proof.
  induction s as [|c s IH]; simpl; [done|].
  destruct (Ascii.eqb_spec c sep) as [->|Hne].
  - rewrite join_cons by apply split_nonempty. simpl. by rewrite IH.
  - pose proof (split_nonempty sep s) as Hs.
    destruct (split sep s) as [|part parts]; [done|].
    destruct parts as [|part' parts].
    + simpl in *. by rewrite IH.
    + rewrite join_cons by done. rewrite join_cons in IH by done.
      rewrite <- IH. reflexivity.
Qed.

Lemma split_inj sep s t : split sep s = split sep t -> s = t.
Proof. intros H. rewrite <- (join_split sep s), <- (join_split sep t). by rewrite H. Qed.

Lemma split_app_free sep part rest :
  free_of sep part = true ->
  split sep (part +:+ String sep rest) = part :: split sep rest.
Proof.
  induction part as [|c part IH]; simpl; intros Hfree.
  - by rewrite Ascii.eqb_refl.
  - apply andb_true_iff in Hfree as [Hc Hfree]. apply negb_true_iff in Hc.
    rewrite Hc, IH by done. done.
Qed.

Lemma split_free sep part : free_of sep part = true -> split sep part = [part].
Proof.
  induction part as [|c part IH]; simpl; intros Hfree; [done|].
  apply andb_true_iff in Hfree as [Hc Hfree]. apply negb_true_iff in Hc.
  rewrite Hc, IH by done. done.
Qed.

Lemma split_join sep parts :
  parts <> [] -> forallb (free_of sep) parts = true ->
  split sep (join sep parts) = parts.
Proof.
  induction parts as [|part parts IH]; [done|]. intros _ Hfree.
  simpl in Hfree. apply andb_true_iff in Hfree as [Hpart Hfree].
  destruct parts as [|part' parts].
  - simpl. by apply split_free.
  - rewrite join_cons by done. rewrite split_app_free by done.
    by rewrite IH.
Qed.

(** ** The loop of [match] is the recursion on the segments *)

Lemma match_for_beyond ps : forall pre qp,
  (length qp < length pre)%nat ->
  Permission.match_for (pre ++ ps) qp (length ps) (length pre) = beyond ps.
Proof.
  induction ps as [|p ps IH]; intros pre qp Hlen; simpl.
  - rewrite app_nil_r. apply Nat.eqb_neq. lia.
  - rewrite list_lookup_middle by done.
    rewrite (lookup_ge_None_2 qp) by lia.
    replace (pre ++ p :: ps) with ((pre ++ [p]) ++ ps) by by rewrite <- app_assoc.
    replace (S (length pre)) with (length (pre ++ [p])) by (rewrite length_app; simpl; lia).
    rewrite IH by (rewrite length_app; simpl; lia).
    destruct (String.eqb_spec p "**") as [->|Hss].
    { by rewrite bool_decide_eq_true_2. }
    rewrite bool_decide_eq_false_2 by congruence.
    destruct (String.eqb_spec p "*") as [->|Hs].
    { by rewrite bool_decide_eq_true_2. }
    rewrite bool_decide_eq_false_2 by congruence. done.
Qed.

Lemma match_for_walk ps : forall pre_p pre_q qs,
  length pre_p = length pre_q ->
  Permission.match_for (pre_p ++ ps) (pre_q ++ qs) (length ps) (length pre_p)
  = walk ps qs.
Proof.
  induction ps as [|p ps IH]; intros pre_p pre_q qs Hlen; simpl.
  - rewrite app_nil_r, length_app, Hlen.
    destruct qs; simpl; apply Nat.eqb_eq || apply Nat.eqb_neq; lia.
  - rewrite list_lookup_middle by done.
    replace (pre_p ++ p :: ps) with ((pre_p ++ [p]) ++ ps) by by rewrite <- app_assoc.
    replace (S (length pre_p)) with (length (pre_p ++ [p])) by (rewrite length_app; simpl; lia).
    destruct (String.eqb_spec p "**") as [->|Hss].
    { by rewrite bool_decide_eq_true_2. }
    rewrite bool_decide_eq_false_2 by congruence.
    destruct qs as [|q qs].
    + rewrite app_nil_r.
      rewrite (lookup_ge_None_2 pre_q) by lia.
      destruct (String.eqb_spec p "*") as [->|Hs].
      * rewrite bool_decide_eq_true_2 by done.
        apply match_for_beyond. rewrite length_app; simpl; lia.
      * rewrite bool_decide_eq_false_2 by congruence. done.
    + rewrite (list_lookup_middle pre_q) by done.
      replace (pre_q ++ q :: qs) with ((pre_q ++ [q]) ++ qs) by by rewrite <- app_assoc.
      rewrite IH by (rewrite !length_app; simpl; lia).
      destruct (String.eqb_spec p "*") as [->|Hs].
      { by rewrite bool_decide_eq_true_2. }
      rewrite bool_decide_eq_false_2 by congruence. simpl.
      destruct (String.eqb_spec q "") as [->|Hq]; [done|].
      destruct (String.eqb_spec p q) as [->|Hpq].
      * rewrite bool_decide_eq_false_2; [done|]. intros H; by apply H.
      * rewrite bool_decide_eq_true_2; [done|]. congruence.
Qed.

Lemma match_unfold pattern permission :
  Permission.match_ pattern permission =
  String.eqb pattern permission
  || walk (split ":" pattern) (split ":" permission).
Proof.
  unfold Permission.match_, or_array, truthy_array.
  destruct (String.eqb pattern permission); [done|]. simpl.
  apply (match_for_walk _ [] []). done.
Qed.

Lemma passing_segments_refl ps : passing_segments ps ps = true.
Proof.
  induction ps as [|p ps IH]; simpl; [done|].
  destruct (String.eqb p "**"); [done|].
  destruct (String.eqb p "*"); [done|].
  by rewrite String.eqb_refl.
Qed.

Lemma walk_passing ps : forall qs,
  forallb nonempty ps = true \/ forallb nonempty qs = true ->
  walk ps qs = passing_segments ps qs.
Proof.
  induction ps as [|p ps IH]; intros qs Hne; simpl; [done|].
  destruct (String.eqb p "**"); [done|].
  destruct qs as [|q qs]; [done|].
  assert (forallb nonempty ps = true \/ forallb nonempty qs = true) as Hrest.
  { destruct Hne as [H|H]; simpl in H; apply andb_true_iff in H; tauto. }
  destruct (String.eqb p "*"); [by apply IH|].
  rewrite IH by done.
  destruct (String.eqb_spec q "") as [->|Hq]; [|by destruct (String.eqb p "")].
  destruct (String.eqb_spec p "") as [->|Hp]; [|done].
  destruct Hne as [H|H]; simpl in H; discriminate H.
Qed.

(** Where the pattern is not longer than the permission, passing over a
    [*] and consuming one segment for it are the same. *)
Lemma passing_claimed ps : forall qs,
  (length ps <= length qs)%nat ->
  passing_segments ps qs = claimed_segments ps qs.
Proof.
  induction ps as [|p ps IH]; intros qs Hlen; simpl; [done|].
  destruct (String.eqb p "**"); [done|].
  destruct qs as [|q qs]; simpl in Hlen; [lia|].
  rewrite IH by lia. done.
Qed.

Lemma walk_skip_star ps1 : forall qs1 ps2 qs2 x,
  length ps1 = length qs1 ->
  walk (ps1 ++ "*" :: ps2) (qs1 ++ x :: qs2) = walk (ps1 ++ ps2) (qs1 ++ qs2).
Proof.
  induction ps1 as [|p ps1 IH]; intros [|q qs1] ps2 qs2 x Hlen;
    simpl in Hlen; try lia.
  - reflexivity.
  - simpl. rewrite IH by lia. done.
Qed.

Lemma free_of_forallb_app sep (xs ys : list string) :
  forallb (free_of sep) (xs ++ ys) = true ->
  forallb (free_of sep) xs = true /\ forallb (free_of sep) ys = true.
Proof. rewrite forallb_app. apply andb_true_iff. Qed.

Lemma join_star_differs ps1 ps2 qs1 qs2 x :
  length ps1 = length qs1 ->
  forallb (free_of ":") (ps1 ++ ps2) = true ->
  forallb (free_of ":") (qs1 ++ x :: qs2) = true ->
  x <> "*" ->
  String.eqb (join ":" (ps1 ++ "*" :: ps2)) (join ":" (qs1 ++ x :: qs2)) = false.
Proof.
  intros Hlen Hp Hq Hx. apply String.eqb_neq. intros Heq.
  apply (f_equal (split ":")) in Heq.
  apply free_of_forallb_app in Hp as [Hp1 Hp2].
  rewrite !split_join in Heq.
  - apply app_inj_1 in Heq as [_ Heq]; [|done]. congruence.
  - by destruct qs1.
  - done.
  - by destruct ps1.
  - rewrite forallb_app. simpl. by rewrite Hp1, Hp2.
Qed.

(** Strings without [':'] are single segments, so they are matched
    whole: dots do not separate anything. *)
Lemma match_single_segment pattern permission :
  free_of ":" pattern = true -> free_of ":" permission = true ->
  Permission.match_ pattern permission =
  String.eqb pattern permission || String.eqb pattern "**"
  || String.eqb pattern "*".
Proof.
  intros Hp Hq. rewrite match_unfold, !split_free by done. simpl.
  destruct (String.eqb_spec pattern permission) as [->|Hne]; [done|].
  destruct (String.eqb pattern "**"); [done|].
  destruct (String.eqb pattern "*"); [done|]. simpl.
  by destruct (String.eqb permission "").
Qed.

(** ** C2: what [match] decides *)

(** C2, as stated, fails: in "a:*:**" the [*] has no segment of "a" to
    consume, yet the match succeeds. *)
Lemma match_star_without_segment :
  Permission.match_ "a:*:**" "a" = true /\ claimed_match "a:*:**" "a" = false.
Proof. split; reflexivity. Qed.

(** An empty literal segment is refused where the strings differ. *)
Example match_empty_literal :
  Permission.match_ "user:" "user:" = true /\
  Permission.match_ "*:" "user:" = false /\ claimed_match "*:" "user:" = true.
Proof. repeat split; reflexivity. Qed.

(** C2 (amended): for a pattern and a permission that are the same string
    or one of which has no empty segment, [match] holds exactly when,
    segment by segment on [':'], every literal of the pattern equals the
    permission's segment at its index, every [*] is passed over together
    with the segment at its index (if there is one), a [**] ends the
    comparison with success, and, when no [**] is reached, both have the
    same number of segments. Where the pattern has no more segments than
    the permission this is the matcher as the specification words it.
    A bare [**] matches every permission. *)
Theorem match_characterised pattern permission :
  pattern = permission \/ no_empty_segment pattern = true
    \/ no_empty_segment permission = true ->
  Permission.match_ pattern permission = passing_match pattern permission
  /\ ((length (split ":" pattern) <= length (split ":" permission))%nat ->
      Permission.match_ pattern permission = claimed_match pattern permission)
  /\ Permission.match_ "**" permission = true.
Proof.
  intros Hyp.
  assert (Permission.match_ pattern permission = passing_match pattern permission)
    as Hpassing.
  { rewrite match_unfold. unfold passing_match.
    destruct (String.eqb_spec pattern permission) as [->|Hne].
    - by rewrite passing_segments_refl.
    - simpl. apply walk_passing.
      destruct Hyp as [?|[?|?]]; [done| by left | by right]. }
  split_and!.
  - exact Hpassing.
  - intros Hlen. rewrite Hpassing. by apply passing_claimed.
  - rewrite match_unfold. simpl. apply orb_true_r.
Qed.

Lemma match_characterised_witness :
  Permission.match_ "user:*:view" "user:profile:view"
  = passing_match "user:*:view" "user:profile:view"
  /\ Permission.match_ "user:*:view" "user:profile:view"
     = claimed_match "user:*:view" "user:profile:view".
Proof.
  destruct (match_characterised "user:*:view" "user:profile:view")
    as (Hpassing & Hclaimed & _).
  - right; left. reflexivity.
  - split; [exact Hpassing|]. apply Hclaimed. simpl. lia.
Defined.

(** ** C4: the dot-delimited scheme *)

(** C4 at "user.*": the [':'] split of either string is a non-empty
    array, so the ['.'] split after [||] is never taken and the strings
    are compared as single segments. *)
Theorem match_dot_wildcard :
  Permission.match_ "user:*" "user:read" = true /\
  Permission.match_ "user.*" "user.read" = false /\
  or_array (split ":" "user.*") (split "." "user.*") = ["user.*"].
Proof. repeat split; reflexivity. Qed.

(** ** C5: the single wildcard *)

(** C5, as stated, fails: segment 1 of "user:" is empty, the strings
    differ, and the [*] accepts it. *)
Lemma match_star_empty_segment :
  split ":" "user:*" !! 1%nat = Some "*" /\
  split ":" "user:" !! 1%nat = Some "" /\
  "user:*" <> "user:" /\
  Permission.match_ "user:*" "user:" = true.
Proof. repeat split; done. Qed.

(** C5 (amended): a [*] at index [i] of the pattern does not look at the
    permission's segment at [i]: the loop goes on at index [i+1], and for
    permissions that are not the same string as the pattern the verdict
    is the same whatever that segment is, empty or not. *)
Theorem match_star_any_segment pattern permission permission'
    ps1 ps2 qs1 qs2 x y :
  split ":" pattern = ps1 ++ "*" :: ps2 ->
  split ":" permission = qs1 ++ x :: qs2 ->
  split ":" permission' = qs1 ++ y :: qs2 ->
  length ps1 = length qs1 ->
  pattern <> permission -> pattern <> permission' ->
  (forall permissionParts n,
     Permission.match_for (split ":" pattern) permissionParts (S n) (length ps1)
     = Permission.match_for (split ":" pattern) permissionParts n
         (S (length ps1)))
  /\ Permission.match_ pattern permission
     = Permission.match_ pattern permission'.
Proof.
  intros Hpattern Hpermission Hpermission' Hlen Hne Hne'. split.
  - intros permissionParts n. rewrite Hpattern. simpl.
    rewrite list_lookup_middle by done.
    rewrite bool_decide_eq_false_2 by discriminate.
    by rewrite bool_decide_eq_true_2.
  - rewrite !match_unfold.
    rewrite (proj2 (String.eqb_neq pattern permission)) by done.
    rewrite (proj2 (String.eqb_neq pattern permission')) by done.
    simpl. rewrite Hpattern, Hpermission, Hpermission'.
    by rewrite !walk_skip_star.
Qed.

Lemma match_star_any_segment_witness :
  Permission.match_ "user:*" "user:" = Permission.match_ "user:*" "user:read"
  /\ Permission.match_ "a:*" "b:*" = Permission.match_ "a:*" "b:read".
Proof.
  split.
  - apply (match_star_any_segment "user:*" "user:" "user:read"
             ["user"] [] ["user"] [] "" "read"); done.
  - apply (match_star_any_segment "a:*" "b:*" "b:read"
             ["a"] [] ["b"] [] "*" "read"); done.
Defined.

(** ** The permission set *)

Lemma elem_of_Set_add s x y : y ∈ Set_add s x <-> y ∈ s \/ y = x.
Proof.
  unfold Set_add. case_bool_decide as Hin.
  - split; [by left|]. intros [?| ->]; done.
  - rewrite elem_of_app, list_elem_of_singleton. done.
Qed.

Lemma NoDup_Set_add s x : NoDup s -> NoDup (Set_add s x).
Proof.
  intros Hs. unfold Set_add. case_bool_decide as Hin; [done|].
  apply NoDup_app. split_and!; [done| |apply NoDup_singleton].
  intros y Hy Hx. apply list_elem_of_singleton in Hx as ->. done.
Qed.

Lemma elem_of_Set_addAll xs : forall s y,
  y ∈ Set_addAll s xs <-> y ∈ s \/ y ∈ xs.
Proof.
  unfold Set_addAll.
  induction xs as [|x xs IH]; intros s y; simpl.
  - rewrite elem_of_nil. tauto.
  - rewrite IH, elem_of_Set_add, elem_of_cons. tauto.
Qed.

Lemma NoDup_Set_addAll xs : forall s, NoDup s -> NoDup (Set_addAll s xs).
Proof.
  unfold Set_addAll.
  induction xs as [|x xs IH]; intros s Hs; simpl; [done|].
  by apply IH, NoDup_Set_add.
Qed.

Lemma elem_of_Set_new xs y : y ∈ Set_new xs <-> y ∈ default [] xs.
Proof. unfold Set_new. rewrite elem_of_Set_addAll, elem_of_nil. tauto. Qed.

Lemma NoDup_Set_new xs : NoDup (Set_new xs).
Proof. apply NoDup_Set_addAll, NoDup_nil_2. Qed.

(** ** forEach *)

Lemma forEach_app {A S} (f : A -> S -> option S) xs ys st :
  forEach f (xs ++ ys) st =
  match forEach f xs st with
  | Some st' => forEach f ys st'
  | None => None
  end.
Proof.
  revert st. induction xs as [|x xs IH]; intros st; simpl; [done|].
  destruct (f x st); [apply IH|done].
Qed.

Lemma forEach_impl {A S} (f g : A -> S -> option S) xs :
  (forall x st st', f x st = Some st' -> g x st = Some st') ->
  forall st st', forEach f xs st = Some st' -> forEach g xs st = Some st'.
Proof.
  intros Hfg. induction xs as [|x xs IH]; intros st st'; simpl; [done|].
  destruct (f x st) as [st1|] eqn:Hf; [|done].
  rewrite (Hfg _ _ _ Hf). apply IH.
Qed.

(** ** Reachability *)

Section Reachability.
Variable roles : gmap string Role.t.

Lemma reachable_mono roots roots' n :
  (forall r, r ∈ roots -> reachable roles roots' r) ->
  reachable roles roots n -> reachable roles roots' n.
Proof.
  intros Hroots. induction 1 as [n Hn|n m _ IH Hedge]; [by apply Hroots|].
  by eapply reachable_step.
Qed.

Lemma reachable_same_roots roots roots' n :
  (forall r, r ∈ roots <-> r ∈ roots') ->
  reachable roles roots n <-> reachable roles roots' n.
Proof.
  intros Hroots. split; apply reachable_mono; intros r Hr;
    apply reachable_root; by apply Hroots.
Qed.

(** A set of names that holds the roots and is closed under the inherits
    edges holds every reachable name. *)
Lemma reachable_closed roots (V : gset string) n :
  (forall r, r ∈ roots -> r ∈ V) ->
  (forall a b, a ∈ V -> inherits_edge roles a b -> b ∈ V) ->
  reachable roles roots n -> n ∈ V.
Proof.
  intros Hroots Hclosed. induction 1 as [n Hn|n m _ IH Hedge]; [by apply Hroots|].
  by eapply Hclosed.
Qed.

End Reachability.

(** ** The walk over the roles *)

Section Walk.
Variable roles : gmap string Role.t.

Lemma walked_refl srcs w : walked roles srcs w w.
Proof.
  split; try done.
  - intros p. split; [by left|]. intros [?|(n & r & ? & ? & _)]; done.
  - exists []. rewrite app_nil_r. split_and!; [done|apply NoDup_nil_2|].
    intros n. rewrite elem_of_nil. tauto.
Qed.

Lemma walked_weaken srcs srcs' w w' :
  (forall r, r ∈ srcs -> reachable roles srcs' r) ->
  walked roles srcs w w' -> walked roles srcs' w w'.
Proof.
  intros Hsrcs [Hmono Hsound Hclosed Hprms Hcontr Hnodup].
  split; try done.
  intros n Hn Hn'. eapply reachable_mono; eauto.
Qed.

Lemma walked_trans srcs w w' w'' :
  walked roles srcs w w' -> walked roles srcs w' w'' -> walked roles srcs w w''.
Proof.
  intros [Hmono Hsound Hclosed Hprms Hcontr Hnodup]
         [Hmono' Hsound' Hclosed' Hprms' Hcontr' Hnodup'].
  split.
  - set_solver.
  - intros n Hn Hn'. destruct (decide (n ∈ visitedRoles w')); eauto.
  - intros n m Hn Hn' Hedge.
    destruct (decide (n ∈ visitedRoles w')) as [Hin|Hout]; [|by eauto].
    apply Hmono'. eauto.
  - intros p. rewrite Hprms', Hprms. split.
    + intros [[?|(n & r & Hn & Hn' & Hr & Hp)]|(n & r & Hn & Hn' & Hr & Hp)].
      * by left.
      * right. exists n, r. split_and!; try done. by apply Hmono'.
      * right. exists n, r. split_and!; try done. set_solver.
    + intros [?|(n & r & Hn & Hn' & Hr & Hp)]; [by left; left|].
      destruct (decide (n ∈ visitedRoles w')) as [Hin|Hout].
      * left; right. by exists n, r.
      * right. by exists n, r.
  - destruct Hcontr as (new & Hw' & Hnew & Hin).
    destruct Hcontr' as (new' & Hw'' & Hnew' & Hin').
    exists (new ++ new'). split_and!.
    + by rewrite Hw'', Hw', <- app_assoc.
    + apply NoDup_app. split_and!; [done| |done].
      intros n Hn Hn'. apply Hin in Hn. apply Hin' in Hn'. tauto.
    + intros n. rewrite elem_of_app, Hin, Hin'. split.
      * intros [(? & ? & ?)|(? & ? & ?)]; split_and!; try done; set_solver.
      * intros (? & ? & ?).
        destruct (decide (n ∈ visitedRoles w')); [left|right]; done.
  - auto.
Qed.

Lemma unvisited_mono w w' :
  visitedRoles w ⊆ visitedRoles w' -> (unvisited roles w' <= unvisited roles w)%nat.
Proof. intros H. unfold unvisited. apply subseteq_size. set_solver. Qed.

Lemma unvisited_enter roleName role w :
  roles !! roleName = Some role -> roleName ∉ visitedRoles w ->
  (unvisited roles (mkWalk (prms w) ({[roleName]} ∪ visitedRoles w) (contributed w))
   < unvisited roles w)%nat.
Proof.
  intros Hrole Hnew. unfold unvisited. apply subset_size. simpl.
  assert (roleName ∈ dom roles) by (apply elem_of_dom; eauto).
  set_solver.
Qed.

(** [forEach] over a callback that walks from each name. *)
Lemma forEach_walked (f : string -> Walk -> option Walk) (bound : nat) :
  (forall name w, (unvisited roles w < bound)%nat ->
     exists w', f name w = Some w' /\ walked roles [name] w w' /\
                name ∈ visitedRoles w') ->
  forall names w, (unvisited roles w < bound)%nat ->
    exists w', forEach f names w = Some w' /\ walked roles names w w' /\
               forall n, n ∈ names -> n ∈ visitedRoles w'.
Proof.
  intros Hf names. induction names as [|name names IH]; intros w Hw; simpl.
  - exists w. split_and!; [done|apply walked_refl|]. intros n Hn. by apply elem_of_nil in Hn.
  - destruct (Hf name w Hw) as (w1 & -> & Hw1 & Hname).
    destruct (IH w1) as (w' & Hw' & Hrest & Hnames).
    { pose proof (unvisited_mono _ _ (walked_mono _ _ _ _ Hw1)). lia. }
    exists w'. split_and!; [done| |].
    + eapply walked_trans.
      * eapply walked_weaken; [|exact Hw1].
        intros r Hr. apply list_elem_of_singleton in Hr as ->.
        apply reachable_root, elem_of_cons. by left.
      * eapply walked_weaken; [|exact Hrest].
        intros r Hr. apply reachable_root, elem_of_cons. by right.
    + intros n Hn. apply elem_of_cons in Hn as [->|Hn]; [|by auto].
      by apply (walked_mono _ _ _ _ Hrest).
Qed.

(** The closure [visited] returns whenever the fuel exceeds the number of
    registered roles not yet entered, and walks from [roleName]. *)
Lemma visited_walked fuel : forall roleName w,
  (unvisited roles w < fuel)%nat ->
  exists w', visited roles fuel roleName w = Some w' /\
             walked roles [roleName] w w' /\ roleName ∈ visitedRoles w'.
Proof.
  induction fuel as [|fuel IH]; intros roleName w Hfuel; [lia|]. simpl.
  case_bool_decide as Hseen.
  { exists w. split_and!; [done|apply walked_refl|done]. }
  destruct (roles !! roleName) as [role|] eqn:Hrole.
  - set (w1 := mkWalk (prms w) ({[roleName]} ∪ visitedRoles w) (contributed w)).
    set (w2 := mkWalk _ _ _).
    assert (unvisited roles w2 < fuel)%nat as Hw2.
    { pose proof (unvisited_enter _ _ _ Hrole Hseen).
      unfold unvisited in *. simpl in *. lia. }
    destruct (forEach_walked _ _ IH (inherited role) w2 Hw2)
      as (w' & Hw' & [Hmono Hsound Hclosed Hprms Hcontr Hnodup] & Hinh).
    simpl in *.
    exists w'. split_and!; [done| |set_solver].
    split.
    + set_solver.
    + intros n Hn Hn'. destruct (decide (n = roleName)) as [->|Hne].
      * apply reachable_root, list_elem_of_singleton. done.
      * eapply reachable_mono; [|apply (Hsound n Hn); set_solver].
        intros r Hr. eapply reachable_step.
        -- apply reachable_root, list_elem_of_singleton. done.
        -- by exists role.
    + intros n m Hn Hn' Hedge. destruct (decide (n = roleName)) as [->|Hne].
      * destruct Hedge as (r & Hr & Hm). apply Hinh. congruence.
      * apply (Hclosed n m Hn); [set_solver|done].
    + intros p. rewrite Hprms, elem_of_Set_addAll. split.
      * intros [[?|Hp]|(n & r & Hn & Hn' & Hr & Hp)].
        -- by left.
        -- right. exists roleName, role. split_and!; try done. set_solver.
        -- right. exists n, r. split_and!; try done. set_solver.
      * intros [?|(n & r & Hn & Hn' & Hr & Hp)]; [by left; left|].
        destruct (decide (n = roleName)) as [->|Hne].
        -- left; right. congruence.
        -- right. exists n, r. split_and!; try done. set_solver.
    + destruct Hcontr as (new & Hw'c & Hnew & Hin).
      exists (roleName :: new). split_and!.
      * by rewrite Hw'c, <- app_assoc.
      * apply NoDup_cons. split; [|done]. intros Hn. apply Hin in Hn. set_solver.
      * intros n. rewrite elem_of_cons, Hin. split.
        -- intros [->|(? & ? & ?)]; split_and!; try done; set_solver.
        -- intros (? & ? & ?). destruct (decide (n = roleName)); [by left|].
           right. split_and!; try done. set_solver.
    + intros Hnd. by apply Hnodup, NoDup_Set_addAll.
  - eexists. split_and!; [done| |set_solver]. split; simpl; try done.
    + set_solver.
    + intros n Hn Hn'. apply reachable_root, list_elem_of_singleton. set_solver.
    + intros n m Hn Hn' (r & Hr & _).
      assert (n = roleName) as -> by set_solver. congruence.
    + intros p. split; [by left|].
      intros [?|(n & r & Hn & Hn' & Hr & _)]; [done|].
      assert (n = roleName) as -> by set_solver. congruence.
    + exists []. rewrite app_nil_r. split_and!; [done|apply NoDup_nil_2|].
      intros n. rewrite elem_of_nil. split; [done|]. intros (Hn & Hn' & [r Hr]).
      assert (n = roleName) as -> by set_solver. congruence.
Qed.

(** More fuel does not change a walk that returned. *)
Lemma visited_fuel_mono fuel : forall fuel' roleName w w',
  (fuel <= fuel')%nat ->
  visited roles fuel roleName w = Some w' ->
  visited roles fuel' roleName w = Some w'.
Proof.
  induction fuel as [|fuel IH]; intros fuel' roleName w w' Hle; [done|].
  destruct fuel' as [|fuel']; [lia|]. simpl.
  case_bool_decide; [done|].
  destruct (roles !! roleName) as [role|]; [|done].
  apply forEach_impl. intros x st st'. apply IH. lia.
Qed.

End Walk.

(** ** getPermissions computes the effective permission set *)

Lemma walkRoles_walked roles subject fuel :
  (size roles < fuel)%nat ->
  exists w, walkRoles fuel roles subject = Some w /\
    walked roles (Subject.roles subject)
      (mkWalk (Set_new (Subject.permissions subject)) ∅ []) w /\
    forall n, n ∈ Subject.roles subject -> n ∈ visitedRoles w.
Proof.
  intros Hfuel. apply forEach_walked with (bound := fuel).
  - apply visited_walked.
  - unfold unvisited. simpl.
    replace (dom roles ∖ ∅) with (dom roles) by set_solver.
    by rewrite size_dom.
Qed.

Lemma walkRoles_fuel roles subject fuel fuel' w :
  (fuel <= fuel')%nat ->
  walkRoles fuel roles subject = Some w ->
  walkRoles fuel' roles subject = Some w.
Proof.
  intros Hle. apply forEach_impl. intros x st st'.
  by apply visited_fuel_mono.
Qed.

(** The names the walk has visited are the reachable ones. *)
Lemma walkRoles_visited roles subject fuel w n :
  (size roles < fuel)%nat ->
  walkRoles fuel roles subject = Some w ->
  n ∈ visitedRoles w <-> reachable roles (Subject.roles subject) n.
Proof.
  intros Hfuel Hw.
  destruct (walkRoles_walked roles subject fuel Hfuel) as (w' & Hw' & Hwalked & Hroots).
  assert (w' = w) as -> by congruence.
  destruct Hwalked as [_ Hsound Hclosed _ _ _]. simpl in *. split.
  - intros Hn. apply Hsound; [done|set_solver].
  - apply reachable_closed; [done|].
    intros a b Ha. apply Hclosed; [done|set_solver].
Qed.

Lemma walkRoles_effective roles subject fuel w p :
  (size roles < fuel)%nat ->
  walkRoles fuel roles subject = Some w ->
  p ∈ prms w <-> effective roles subject p.
Proof.
  intros Hfuel Hw.
  destruct (walkRoles_walked roles subject fuel Hfuel) as (w' & Hw' & Hwalked & Hroots).
  assert (w' = w) as -> by congruence.
  rewrite (walked_prms _ _ _ _ Hwalked). simpl.
  unfold effective. rewrite elem_of_Set_new. split.
  - intros [?|(n & r & Hn & _ & Hr & Hp)]; [by left|].
    right. exists n, r. split_and!; try done.
    by apply (walkRoles_visited roles subject fuel w).
  - intros [?|(n & r & Hn & Hr & Hp)]; [by left|].
    right. exists n, r. split_and!; try done; try set_solver.
    by apply (walkRoles_visited roles subject fuel w).
Qed.

Lemma getPermissions_effective roles subject :
  exists ps, getPermissions roles subject = Some ps /\ NoDup ps /\
             forall p, p ∈ ps <-> effective roles subject p.
Proof.
  destruct (walkRoles_walked roles subject (S (size roles))) as (w & Hw & Hwalked & _);
    [lia|].
  exists (prms w). unfold getPermissions. rewrite Hw. split_and!; [done| |].
  - apply (walked_NoDup _ _ _ _ Hwalked). simpl. apply NoDup_Set_new.
  - intros p. apply (walkRoles_effective roles subject (S (size roles))); [lia|done].
Qed.

(** ** C3: resolution terminates, and each role contributes once *)

(** C3: for every registry and subject the walk over the roles returns,
    with the fuel [getPermissions] gives it and with any larger one; the
    set it returns holds no permission twice and holds exactly the
    subject's direct permissions and the permissions of the registered
    roles reachable from the subject's roles; the roles whose permissions
    it has added are those roles, each of them once; and where [a]
    inherits [b] and [b] inherits [a], resolving from [a] yields the
    permissions of both. *)
Theorem getPermissions_terminates roles subject :
  exists w,
    (forall fuel, (size roles < fuel)%nat ->
       walkRoles fuel roles subject = Some w) /\
    getPermissions roles subject = Some (prms w) /\
    NoDup (prms w) /\
    (forall p, p ∈ prms w <-> effective roles subject p) /\
    NoDup (contributed w) /\
    (forall n, n ∈ contributed w <->
       reachable roles (Subject.roles subject) n /\ is_Some (roles !! n)) /\
    (forall a b ra rb p,
       a ∈ Subject.roles subject ->
       roles !! a = Some ra -> roles !! b = Some rb ->
       b ∈ inherited ra -> a ∈ inherited rb ->
       p ∈ Role.permissions ra \/ p ∈ Role.permissions rb ->
       p ∈ prms w).
Proof.
  destruct (walkRoles_walked roles subject (S (size roles)))
    as (w & Hw & Hwalked & Hroots); [lia|].
  assert (forall n, n ∈ visitedRoles w <-> reachable roles (Subject.roles subject) n)
    as Hvisited.
  { intros n. apply (walkRoles_visited roles subject (S (size roles))); [lia|done]. }
  exists w. split_and!.
  - intros fuel Hfuel. apply (walkRoles_fuel roles subject (S (size roles))); [lia|done].
  - unfold getPermissions. by rewrite Hw.
  - apply (walked_NoDup _ _ _ _ Hwalked). simpl. apply NoDup_Set_new.
  - intros p. apply (walkRoles_effective roles subject (S (size roles))); [lia|done].
  - destruct (walked_contributed _ _ _ _ Hwalked) as (new & -> & Hnew & _). done.
  - intros n.
    destruct (walked_contributed _ _ _ _ Hwalked) as (new & -> & _ & Hin).
    simpl. rewrite Hin, Hvisited. set_solver.
  - intros a b ra rb p Ha Hra Hrb Hb _ Hp.
    apply (walkRoles_effective roles subject (S (size roles))); [lia|done|].
    right. destruct Hp as [Hp|Hp].
    + exists a, ra. split_and!; try done. by apply reachable_root.
    + exists b, rb. split_and!; try done.
      eapply reachable_step; [by apply reachable_root|]. by exists ra.
Qed.

Lemma getPermissions_terminates_witness :
  exists w, walkRoles 3 cyclic subjectA = Some w /\
            "perm:a" ∈ prms w /\ "perm:b" ∈ prms w.
Proof.
  destruct (getPermissions_terminates cyclic subjectA)
    as (w & Hfuel & _ & _ & _ & _ & _ & Hcycle).
  exists w. split.
  { apply Hfuel. vm_compute. lia. }
  split; apply (Hcycle "roleA" "roleB" roleA roleB);
    try (vm_compute; reflexivity); simpl; set_solver.
Defined.

(** ** The pipeline of [can] *)

Lemma can_with_resolved resolver subject permission context w ps :
  resolver (roles (engine w)) subject = Some ps ->
  can_with resolver subject permission context w =
  let args := mkArgs subject (default ∅ context) in
  if negb (existsb (fun perm => Permission.match_ perm permission) ps) then
    (Resolved (mkAuth false (Some not_found) permission), w)
  else
    match policies (engine w) !! permission with
    | Some policy =>
        match policy args with
        | Returns true =>
            (Resolved (mkAuth true None permission), called w permission args)
        | Returns false =>
            (Resolved (mkAuth false (Some denied_by_policy) permission),
             called w permission args)
        | Throws err => (Rejected err, called w permission args)
        end
    | None => (Resolved (mkAuth true None permission), w)
    end.
Proof.
  intros Hps. unfold can_with, bind, this, terminating. rewrite Hps. simpl.
  destruct (existsb _ ps); simpl; [|done].
  destruct (policies (engine w) !! permission) as [policy|]; [|done].
  unfold await_policy, called.
  destruct (policy _) as [[|]|err]; done.
Qed.

Lemma existsb_match_covered roles subject permission ps :
  (forall p, p ∈ ps <-> effective roles subject p) ->
  existsb (fun perm => Permission.match_ perm permission) ps = true <->
  covered roles subject permission.
Proof.
  intros Hps. rewrite existsb_exists. unfold covered. split.
  - intros (pattern & Hin & Hm). exists pattern. split; [|done].
    by apply Hps, list_elem_of_In.
  - intros (pattern & Heff & Hm). exists pattern. split; [|done].
    by apply list_elem_of_In, Hps.
Qed.

(** Whether the permission is covered can be computed. *)
Lemma covered_computed roles subject permission :
  covered roles subject permission <->
  (fun perm => existsb (fun p => Permission.match_ p permission) perm)
    <$> getPermissions roles subject = Some true.
Proof.
  destruct (getPermissions_effective roles subject) as (ps & -> & _ & Hps).
  simpl. rewrite <- (existsb_match_covered roles subject permission ps Hps).
  split; congruence.
Qed.

(** ** C1: the three stages *)

(** C1: [can] decides in three stages. If no pattern of the effective
    permission set matches the requested permission, it resolves to a
    denial with reason "Permission not found in subject
    roles/permissions" and calls no predicate. If one matches and no
    predicate is registered under the requested string, it resolves to
    an allowance without a reason. If one is registered, it is called
    once, and [allowed] is the boolean it returns, with reason "Access
    denied by policy" exactly when that is [false]. *)
Theorem can_three_stages w subject permission context :
  (~ covered (roles (engine w)) subject permission ->
     can subject permission context w =
     (Resolved (mkAuth false (Some not_found) permission), w)) /\
  (covered (roles (engine w)) subject permission ->
     policies (engine w) !! permission = None ->
     can subject permission context w =
     (Resolved (mkAuth true None permission), w)) /\
  (forall policy b,
     covered (roles (engine w)) subject permission ->
     policies (engine w) !! permission = Some policy ->
     policy (mkArgs subject (default ∅ context)) = Returns b ->
     can subject permission context w =
     (Resolved
        (mkAuth b (if b then None else Some denied_by_policy) permission),
      called w permission (mkArgs subject (default ∅ context)))).
Proof.
  destruct (getPermissions_effective (roles (engine w)) subject)
    as (ps & Hps & _ & Heff).
  pose proof (existsb_match_covered _ subject permission ps Heff) as Hcov.
  unfold can. rewrite (can_with_resolved _ _ _ _ _ ps Hps). cbv zeta.
  split_and!.
  - intros Hno. destruct (existsb _ ps); [|done]. by destruct Hno; apply Hcov.
  - intros Hyes Hnone. apply Hcov in Hyes. rewrite Hyes, Hnone. done.
  - intros policy b Hyes Hpol Hret. apply Hcov in Hyes.
    rewrite Hyes, Hpol, Hret. by destruct b.
Qed.

Lemma can_three_stages_witness :
  can user1 "post:delete" None (mkWorld posts []) =
    (Resolved (mkAuth false (Some not_found) "post:delete"), mkWorld posts [])
  /\ can user1 "post:edit" (authoredBy "user-2") (mkWorld posts []) =
    (Resolved (mkAuth false (Some denied_by_policy) "post:edit"),
     called (mkWorld posts []) "post:edit"
       (mkArgs user1 (default ∅ (authoredBy "user-2")))).
Proof.
  split.
  - apply (can_three_stages (mkWorld posts []) user1 "post:delete" None).
    rewrite covered_computed. vm_compute. discriminate.
  - destruct (can_three_stages (mkWorld posts []) user1 "post:edit"
                (authoredBy "user-2")) as (_ & _ & Hpolicy).
    apply (Hpolicy isAuthor false).
    + rewrite covered_computed. vm_compute. reflexivity.
    + vm_compute. reflexivity.
    + vm_compute. reflexivity.
Defined.

(** ** C7: a failing predicate *)

(** C7: [can] ends by resolving to an authorization or by rejecting; and
    when the predicate registered under a covered permission throws (or
    its promise rejects), [can] rejects with that error: it does not
    resolve, to a denial or to anything else. *)
Theorem can_propagates_failure w subject permission context :
  ((exists auth, fst (can subject permission context w) = Resolved auth) \/
   (exists err, fst (can subject permission context w) = Rejected err)) /\
  (forall policy err,
     covered (roles (engine w)) subject permission ->
     policies (engine w) !! permission = Some policy ->
     policy (mkArgs subject (default ∅ context)) = Throws err ->
     can subject permission context w =
       (Rejected err,
        called w permission (mkArgs subject (default ∅ context)))
     /\ forall auth, fst (can subject permission context w) <> Resolved auth).
Proof.
  destruct (getPermissions_effective (roles (engine w)) subject)
    as (ps & Hps & _ & Heff).
  pose proof (existsb_match_covered _ subject permission ps Heff) as Hcov.
  unfold can. rewrite (can_with_resolved _ _ _ _ _ ps Hps). cbv zeta.
  split.
  - destruct (existsb _ ps); simpl; [|by left; eexists].
    destruct (policies (engine w) !! permission) as [policy|]; [|by left; eexists].
    destruct (policy _) as [[|]|err]; simpl;
      (left + right); eexists; reflexivity.
  - intros policy err Hyes Hpol Hthrow. apply Hcov in Hyes.
    rewrite Hyes, Hpol, Hthrow. done.
Qed.

Lemma can_propagates_failure_witness :
  can user1 "post:edit" None
    (mkWorld (mkEngine (roles posts) (<["post:edit" := failing]> ∅)) [])
  = (Rejected "lookup failed",
     mkWorld (mkEngine (roles posts) (<["post:edit" := failing]> ∅))
       [("post:edit", mkArgs user1 ∅)]).
Proof.
  destruct (can_propagates_failure
           (mkWorld (mkEngine (roles posts) (<["post:edit" := failing]> ∅)) [])
           user1 "post:edit" None) as [_ Hthrows].
  apply (Hthrows failing "lookup failed").
  - rewrite covered_computed. vm_compute. reflexivity.
  - vm_compute. reflexivity.
  - reflexivity.
Defined.

(** ** What the methods write, with predicates that only answer *)

(** With predicates that only answer: [can] leaves the role and policy
    registries as they were, and the only predicate call it may add is
    one under the requested permission, with the subject and the context
    it was given; [addRole] and [addPolicy] replace the entry under the
    role's name, or under the permission, and leave every other entry
    and the other registry unchanged. *)
Lemma can_writes_nothing w subject permission context :
  engine (snd (can subject permission context w)) = engine w /\
  (calls (snd (can subject permission context w)) = calls w \/
   calls (snd (can subject permission context w)) =
     calls w ++ [(permission, mkArgs subject (default ∅ context))]) /\
  (forall role,
     roles (engine (snd (addRole role w))) !! Role.name role = Some role /\
     (forall name, name <> Role.name role ->
        roles (engine (snd (addRole role w))) !! name
        = roles (engine w) !! name) /\
     policies (engine (snd (addRole role w))) = policies (engine w) /\
     calls (snd (addRole role w)) = calls w) /\
  (forall key policy,
     policies (engine (snd (addPolicy key policy w))) !! key = Some policy /\
     (forall other, other <> key ->
        policies (engine (snd (addPolicy key policy w))) !! other
        = policies (engine w) !! other) /\
     roles (engine (snd (addPolicy key policy w))) = roles (engine w) /\
     calls (snd (addPolicy key policy w)) = calls w).
Proof.
  split_and!.
  - destruct (getPermissions_effective (roles (engine w)) subject)
      as (ps & Hps & _ & _).
    unfold can. rewrite (can_with_resolved _ _ _ _ _ ps Hps). cbv zeta.
    destruct (negb _); [done|].
    destruct (policies (engine w) !! permission) as [policy|]; [|done].
    by destruct (policy _) as [[|]|err].
  - destruct (getPermissions_effective (roles (engine w)) subject)
      as (ps & Hps & _ & _).
    unfold can. rewrite (can_with_resolved _ _ _ _ _ ps Hps). cbv zeta.
    destruct (negb _); [by left|].
    destruct (policies (engine w) !! permission) as [policy|]; [|by left].
    destruct (policy _) as [[|]|err]; by right.
  - intros role. simpl. split_and!; try done.
    + apply lookup_insert_eq.
    + intros name Hne. by apply lookup_insert_ne.
  - intros key policy. simpl. split_and!; try done.
    + apply lookup_insert_eq.
    + intros other Hne. by apply lookup_insert_ne.
Qed.

Lemma can_writes_nothing_witness :
  engine (snd (can user1 "post:edit" (authoredBy "user-1") (mkWorld posts [])))
    = posts /\
  roles (engine (snd (addRole roleA (mkWorld posts [])))) !! "user" = Some user.
Proof.
  destruct (can_writes_nothing (mkWorld posts []) user1 "post:edit"
              (authoredBy "user-1")) as (Hcan & _ & Hadd & _).
  split; [exact Hcan|].
  destruct (Hadd roleA) as (_ & Hother & _).
  rewrite (Hother "user"); [vm_compute; reflexivity|discriminate].
Defined.

(** ** Registries and subjects that name the same roles *)

Lemma same_registry_edge roles1 roles2 n m :
  same_registry roles1 roles2 ->
  inherits_edge roles1 n m -> inherits_edge roles2 n m.
Proof.
  intros Hsame (r & Hr & Hm). specialize (Hsame n). rewrite Hr in Hsame.
  inversion Hsame as [r1 r2 [_ Hinh] Heq1 Heq2|]; subst.
  exists r2. split; [done|]. by apply Hinh.
Qed.

Lemma same_registry_sym roles1 roles2 :
  same_registry roles1 roles2 -> same_registry roles2 roles1.
Proof.
  intros Hsame n. specialize (Hsame n).
  destruct Hsame as [r1 r2 [Hp Hinh]|]; constructor.
  split; [done|]. intros m. by rewrite (Hinh m).
Qed.

Lemma same_registry_reachable roles1 roles2 roots1 roots2 n :
  same_registry roles1 roles2 -> same_names roots1 roots2 ->
  reachable roles1 roots1 n -> reachable roles2 roots2 n.
Proof.
  intros Hsame Hroots. induction 1 as [n Hn|n m _ IH Hedge].
  - by apply reachable_root, Hroots.
  - eapply reachable_step; [done|]. by eapply same_registry_edge.
Qed.

Lemma same_registry_effective roles1 roles2 s1 s2 p :
  same_registry roles1 roles2 ->
  same_names (Subject.roles s1) (Subject.roles s2) ->
  Subject.permissions s1 = Subject.permissions s2 ->
  effective roles1 s1 p -> effective roles2 s2 p.
Proof.
  intros Hsame Hroots Hdirect [Hp|(n & r & Hn & Hr & Hp)].
  - left. by rewrite <- Hdirect.
  - right. pose proof (Hsame n) as Hn'. rewrite Hr in Hn'.
    inversion Hn' as [r1 r2 [Hperms _] Heq1 Heq2|]; subst.
    exists n, r2. split_and!; [|done|by rewrite <- Hperms].
    by eapply same_registry_reachable.
Qed.

Lemma same_names_sym l1 l2 : same_names l1 l2 -> same_names l2 l1.
Proof. intros H n. by rewrite (H n). Qed.

Lemma same_registry_covered roles1 roles2 s1 s2 permission :
  same_registry roles1 roles2 ->
  same_names (Subject.roles s1) (Subject.roles s2) ->
  Subject.permissions s1 = Subject.permissions s2 ->
  covered roles1 s1 permission <-> covered roles2 s2 permission.
Proof.
  intros Hsame Hroots Hdirect.
  split; intros (pattern & Heff & Hm); exists pattern; (split; [|done]).
  - by eapply same_registry_effective.
  - eapply same_registry_effective; eauto using same_registry_sym, same_names_sym.
Qed.

(** The first stage of [can] only asks whether the permission is covered. *)
Lemma getPermissions_covered roles subject permission :
  exists ps, getPermissions roles subject = Some ps /\
    (existsb (fun perm => Permission.match_ perm permission) ps = true <->
     covered roles subject permission).
Proof.
  destruct (getPermissions_effective roles subject) as (ps & Hps & _ & Heff).
  exists ps. split; [done|]. by apply existsb_match_covered.
Qed.

Lemma bool_eq_iff (b1 b2 : bool) : (b1 = true <-> b2 = true) -> b1 = b2.
Proof. destruct b1, b2; intuition congruence. Qed.

(** ** C9: what [can] writes *)

(** On predicates that write nothing, [Shared.can] is [can]. *)
Lemma shared_can_pure code m reference subject permission context registered log :
  Shared.subjects m !! reference = Some subject ->
  (forall key,
     option_Forall2
       (fun index (policy : PolicyFn) =>
          code index reference (default ∅ context) m
          = (policy (mkArgs subject (default ∅ context)), m))
       (Shared.policies m !! key) (registered !! key)) ->
  Shared.can code reference permission context m
  = (fst (can subject permission context
            (mkWorld (mkEngine (Shared.roles m) registered) log)), m).
Proof.
  intros Hsubject Hcode. unfold Shared.can. rewrite Hsubject.
  destruct (getPermissions_effective (Shared.roles m) subject)
    as (ps & Hps & _ & _).
  unfold can.
  rewrite (can_with_resolved getPermissions subject permission context
             (mkWorld (mkEngine (Shared.roles m) registered) log) ps Hps).
  rewrite Hps. cbv zeta. simpl.
  destruct (negb _); [done|].
  destruct (Hcode permission) as [index policy Hpolicy|]; [|done].
  rewrite Hpolicy. by destruct (policy _) as [[|]|err].
Qed.

(** C9, as stated, fails: [can] hands the subject to the registered
    predicate, and a predicate that writes to it leaves the subject
    changed when [can] has resolved. *)
Lemma can_predicate_writes :
  Shared.subjects (office 0) !! 0%nat = Some user1 /\
  fst (Shared.can callbacks 0 "post:edit" None (office 0))
    = Resolved (mkAuth true None "post:edit") /\
  Shared.subjects (snd (Shared.can callbacks 0 "post:edit" None (office 0)))
    !! 0%nat
    = Some (with_roles user1 ["admin"; "user"]).
Proof. split_and!; vm_compute; reflexivity. Qed.

(** C9 (amended): [can] writes nothing of its own. The memory after it,
    the subject and the two registries, is the memory before it, or, when
    the permission was covered and a predicate is registered under it,
    the memory that predicate has left; so nothing has changed whenever
    the predicate registered under the permission, if any, writes
    nothing. [addRole] and [addPolicy] replace the entry under the role's
    name, or under the permission, and leave every other entry, the other
    registry and the subjects unchanged. *)
Theorem can_own_writes code m subject permission context :
  (snd (Shared.can code subject permission context m) = m \/
   exists held policy,
     Shared.subjects m !! subject = Some held /\
     covered (Shared.roles m) held permission /\
     Shared.policies m !! permission = Some policy /\
     snd (Shared.can code subject permission context m)
     = snd (code policy subject (default ∅ context) m)) /\
  ((forall policy,
      Shared.policies m !! permission = Some policy ->
      snd (code policy subject (default ∅ context) m) = m) ->
   snd (Shared.can code subject permission context m) = m) /\
  (forall role,
     Shared.roles (Shared.addRole role m) !! Role.name role = Some role /\
     (forall name, name <> Role.name role ->
        Shared.roles (Shared.addRole role m) !! name = Shared.roles m !! name) /\
     Shared.policies (Shared.addRole role m) = Shared.policies m /\
     Shared.subjects (Shared.addRole role m) = Shared.subjects m) /\
  (forall key policy,
     Shared.policies (Shared.addPolicy key policy m) !! key = Some policy /\
     (forall other, other <> key ->
        Shared.policies (Shared.addPolicy key policy m) !! other
        = Shared.policies m !! other) /\
     Shared.roles (Shared.addPolicy key policy m) = Shared.roles m /\
     Shared.subjects (Shared.addPolicy key policy m) = Shared.subjects m).
Proof.
  assert (snd (Shared.can code subject permission context m) = m \/
          exists held policy,
            Shared.subjects m !! subject = Some held /\
            covered (Shared.roles m) held permission /\
            Shared.policies m !! permission = Some policy /\
            snd (Shared.can code subject permission context m)
            = snd (code policy subject (default ∅ context) m)) as Hwrites.
  { unfold Shared.can.
    destruct (Shared.subjects m !! subject) as [held|] eqn:Hheld; [|by left].
    destruct (getPermissions_covered (Shared.roles m) held permission)
      as (ps & -> & Hcov).
    cbv zeta. destruct (existsb _ ps) eqn:Hsome; simpl; [|by left].
    destruct (Shared.policies m !! permission) as [policy|] eqn:Hpolicy;
      [|by left].
    right. exists held, policy. split_and!; [done|by apply Hcov|done|].
    by destruct (code policy subject (default ∅ context) m) as [[[|]|err] m']. }
  split_and!.
  - exact Hwrites.
  - intros Hquiet. destruct Hwrites as [?|(held & policy & _ & _ & Hpolicy & ->)];
      [done|]. by apply Hquiet.
  - intros role. simpl. split_and!; try done.
    + apply lookup_insert_eq.
    + intros name Hne. by apply lookup_insert_ne.
  - intros key policy. simpl. split_and!; try done.
    + apply lookup_insert_eq.
    + intros other Hne. by apply lookup_insert_ne.
Qed.

Lemma can_own_writes_witness :
  snd (Shared.can callbacks 0 "post:edit" None (office 1)) = office 1 /\
  Shared.roles (Shared.addRole roleA (office 1)) !! "user" = Some user.
Proof.
  destruct (can_own_writes callbacks (office 1) 0 "post:edit" None)
    as (_ & Hquiet & Hadd & _).
  split.
  - apply Hquiet. intros policy Hpolicy. vm_compute in Hpolicy.
    injection Hpolicy as <-. reflexivity.
  - destruct (Hadd roleA) as (_ & Hother & _).
    rewrite (Hother "user"); [vm_compute; reflexivity|discriminate].
Defined.

(** ** C10: reordered and repeated role names *)

(** C10, as stated, fails: the predicate is handed the subject, and the
    one registered here looks at the subject's first role, so that
    reordering the roles turns an allowance into a denial. *)
Lemma can_reordered_roles :
  same_names (Subject.roles editorFirst) (Subject.roles viewerFirst) /\
  fst (can editorFirst "post.update" None (mkWorld levels []))
    = Resolved (mkAuth true None "post.update") /\
  fst (can viewerFirst "post.update" None (mkWorld levels []))
    = Resolved (mkAuth false (Some denied_by_policy) "post.update").
Proof.
  split_and!.
  - intros n. simpl. set_solver.
  - vm_compute. reflexivity.
  - vm_compute. reflexivity.
Qed.

(** C10 (amended): for two subjects with the same direct permissions
    whose role lists name the same roles, and two registries whose roles
    differ only in the order and repetitions of their inherits lists, the
    effective permission sets are the same, so the permission is covered
    for both or for neither; and when the engines hold the same policies
    and the predicate registered under the permission, if any, answers
    the same for both subjects, [can] ends in the same way for both. *)
Theorem can_same_role_names w1 w2 s1 s2 permission context :
  same_registry (roles (engine w1)) (roles (engine w2)) ->
  same_names (Subject.roles s1) (Subject.roles s2) ->
  Subject.permissions s1 = Subject.permissions s2 ->
  (forall p, effective (roles (engine w1)) s1 p
             <-> effective (roles (engine w2)) s2 p) /\
  (covered (roles (engine w1)) s1 permission
   <-> covered (roles (engine w2)) s2 permission) /\
  (policies (engine w1) = policies (engine w2) ->
   (forall policy, policies (engine w1) !! permission = Some policy ->
      policy (mkArgs s1 (default ∅ context))
      = policy (mkArgs s2 (default ∅ context))) ->
   fst (can s1 permission context w1) = fst (can s2 permission context w2)).
Proof.
  intros Hsame Hroots Hdirect. split_and!.
  - intros p. split; eapply same_registry_effective;
      eauto using same_registry_sym, same_names_sym.
  - by apply same_registry_covered.
  - intros Hpol Hagree.
    destruct (getPermissions_covered (roles (engine w1)) s1 permission)
      as (ps1 & Hps1 & Hcov1).
    destruct (getPermissions_covered (roles (engine w2)) s2 permission)
      as (ps2 & Hps2 & Hcov2).
    unfold can.
    rewrite (can_with_resolved _ _ _ _ _ ps1 Hps1).
    rewrite (can_with_resolved _ _ _ _ _ ps2 Hps2). cbv zeta.
    assert (existsb (fun perm => Permission.match_ perm permission) ps1
            = existsb (fun perm => Permission.match_ perm permission) ps2) as ->.
    { apply bool_eq_iff. rewrite Hcov1, Hcov2.
      by apply same_registry_covered. }
    destruct (negb _); [done|].
    rewrite <- Hpol.
    destruct (policies (engine w1) !! permission) as [policy|] eqn:Hp; [|done].
    rewrite <- (Hagree policy eq_refl).
    by destruct (policy _) as [[|]|err].
Qed.

Lemma same_registry_refl roles : same_registry roles roles.
Proof.
  intros n. destruct (roles !! n); constructor. split; [done|]. by intros m.
Qed.

Lemma can_same_role_names_witness :
  fst (can (holding ["editor"]) "post:read" None
         (mkWorld (blog ["viewer"; "viewer"]) []))
  = fst (can (holding ["editor"; "editor"]) "post:read" None
           (mkWorld (blog ["viewer"]) [])).
Proof.
  destruct (can_same_role_names
              (mkWorld (blog ["viewer"; "viewer"]) [])
              (mkWorld (blog ["viewer"]) [])
              (holding ["editor"]) (holding ["editor"; "editor"])
              "post:read" None) as (_ & _ & Hcan).
  - intros n. simpl. destruct (decide (n = "editor")) as [->|Hne].
    + rewrite !lookup_insert_eq. constructor. split; [done|].
      intros m. simpl. set_solver.
    + unfold blog, roles.
      rewrite (lookup_insert_ne _ "editor" n (postEditor ["viewer"; "viewer"]))
        by done.
      rewrite (lookup_insert_ne _ "editor" n (postEditor ["viewer"])) by done.
      apply same_registry_refl.
  - intros n. simpl. set_solver.
  - reflexivity.
  - apply Hcan; [reflexivity|]. intros policy Hpolicy. vm_compute in Hpolicy.
    discriminate.
Defined.

(** ** C6: names that are not registered *)

Section Unknown.
Variable roles : gmap string Role.t.

Lemma elem_of_known names n :
  n ∈ known roles names <-> n ∈ names /\ is_Some (roles !! n).
Proof. unfold known. rewrite list_elem_of_filter. tauto. Qed.

Lemma pruned_lookup n : pruned roles !! n = forget_unknown roles <$> roles !! n.
Proof. apply lookup_fmap. Qed.

Lemma pruned_edge n m :
  inherits_edge (pruned roles) n m <->
  inherits_edge roles n m /\ is_Some (roles !! m).
Proof.
  unfold inherits_edge. setoid_rewrite pruned_lookup. split.
  - intros (r' & Hr' & Hm). apply fmap_Some in Hr' as (r & Hr & ->).
    unfold inherited in Hm at 1. simpl in Hm. apply elem_of_known in Hm as [Hm ?].
    split; [by exists r|done].
  - intros [(r & Hr & Hm) Hreg]. exists (forget_unknown roles r).
    rewrite Hr. split; [done|].
    unfold inherited at 1. simpl. by apply elem_of_known.
Qed.

Lemma pruned_reachable roots n :
  reachable (pruned roles) (known roles roots) n <->
  reachable roles roots n /\ is_Some (roles !! n).
Proof.
  split.
  - induction 1 as [n Hn|n m _ IH Hedge].
    + apply elem_of_known in Hn as [Hn Hreg]. split; [by apply reachable_root|done].
    + apply pruned_edge in Hedge as [Hedge Hreg].
      split; [|done]. eapply reachable_step; [apply IH|done].
  - intros [Hreach Hreg]. revert Hreg.
    induction Hreach as [n Hn|n m _ IH Hedge]; intros Hreg.
    + apply reachable_root, elem_of_known. done.
    + eapply reachable_step.
      * apply IH. destruct Hedge as (r & Hr & _). by exists r.
      * by apply pruned_edge.
Qed.

Lemma pruned_effective subject p :
  effective (pruned roles) (with_roles subject (known roles (Subject.roles subject))) p
  <-> effective roles subject p.
Proof.
  unfold effective. simpl. setoid_rewrite pruned_reachable.
  setoid_rewrite pruned_lookup. split.
  - intros [?|(n & r' & [Hn _] & Hr' & Hp)]; [by left|]. right.
    apply fmap_Some in Hr' as (r & Hr & ->). by exists n, r.
  - intros [?|(n & r & Hn & Hr & Hp)]; [by left|]. right.
    exists n, (forget_unknown roles r). rewrite Hr. by split_and!.
Qed.

(** Walking from names that are not registered only marks them as
    visited. *)
Lemma forEach_unknown fuel names : forall w,
  (forall n, n ∈ names -> roles !! n = None) ->
  exists w', forEach (visited roles (S fuel)) names w = Some w' /\
             prms w' = prms w /\ contributed w' = contributed w.
Proof.
  induction names as [|name names IH]; intros w Hunknown; simpl.
  - by exists w.
  - case_bool_decide.
    + apply IH. intros n Hn. apply Hunknown. by right.
    + rewrite (Hunknown name) by by left.
      destruct (IH (mkWalk (prms w) ({[name]} ∪ visitedRoles w) (contributed w)))
        as (w' & Hw' & Hprms & Hcontr).
      { intros n Hn. apply Hunknown. by right. }
      by exists w'.
Qed.

Lemma getPermissions_unknown subject :
  (forall n, n ∈ Subject.roles subject -> roles !! n = None) ->
  getPermissions roles subject = Some (Set_new (Subject.permissions subject)).
Proof.
  intros Hunknown. unfold getPermissions, walkRoles.
  destruct (forEach_unknown (size roles) (Subject.roles subject)
              (mkWalk (Set_new (Subject.permissions subject)) ∅ []) Hunknown)
    as (w' & -> & Hprms & _).
  simpl. by rewrite Hprms.
Qed.

End Unknown.

(** C6: resolution returns for every registry and subject; the set it
    returns is the one obtained with the unregistered names dropped from
    the subject's roles and from every inherits list; [can] rejects only
    with the error of a predicate it has called; and when none of the
    subject's roles is registered, the set is the set of the direct
    permissions, and [can] ends as it does on an engine without roles. *)
Theorem unknown_roles_skipped roles subject :
  exists ps,
    getPermissions roles subject = Some ps /\
    (forall p, p ∈ ps <->
       effective (pruned roles)
         (with_roles subject (known roles (Subject.roles subject))) p) /\
    (forall registered permission context log err,
       fst (can subject permission context
              (mkWorld (mkEngine roles registered) log)) = Rejected err ->
       exists policy, registered !! permission = Some policy /\
                      policy (mkArgs subject (default ∅ context)) = Throws err) /\
    ((forall n, n ∈ Subject.roles subject -> roles !! n = None) ->
     ps = Set_new (Subject.permissions subject) /\
     forall registered permission context log,
       fst (can subject permission context
              (mkWorld (mkEngine roles registered) log))
       = fst (can subject permission context
                (mkWorld (mkEngine ∅ registered) log))).
Proof.
  destruct (getPermissions_effective roles subject) as (ps & Hps & _ & Heff).
  exists ps. split_and!; [done| | |].
  - intros p. by rewrite pruned_effective.
  - intros registered permission context log err. unfold can.
    rewrite (can_with_resolved getPermissions subject permission context
               (mkWorld (mkEngine roles registered) log) _ Hps).
    cbv zeta. simpl. destruct (negb _); [done|].
    destruct (registered !! permission) as [policy|]; [|done].
    destruct (policy _) as [[|]|err'] eqn:Hpolicy; simpl; try done.
    intros [= ->]. by exists policy.
  - intros Hunknown.
    pose proof (getPermissions_unknown roles subject Hunknown) as Hps'.
    split; [congruence|].
    intros registered permission context log. unfold can.
    rewrite (can_with_resolved getPermissions subject permission context
               (mkWorld (mkEngine roles registered) log) _ Hps').
    rewrite (can_with_resolved getPermissions subject permission context
               (mkWorld (mkEngine ∅ registered) log)
               (Set_new (Subject.permissions subject))).
    + cbv zeta. simpl. destruct (negb _); [done|].
      destruct (registered !! permission) as [policy|]; [|done].
      by destruct (policy _) as [[|]|err].
    + apply getPermissions_unknown. intros n _. apply lookup_empty.
Qed.

Lemma unknown_roles_skipped_witness :
  getPermissions (roles posts) (holding ["nonexistent"]) = Some [] /\
  fst (can (holding ["nonexistent"]) "any:permission" None (mkWorld posts []))
  = Resolved (mkAuth false (Some not_found) "any:permission").
Proof.
  destruct (unknown_roles_skipped (roles posts) (holding ["nonexistent"]))
    as (ps & Hps & _ & _ & Hunknown).
  destruct Hunknown as [-> Hcan].
  - intros n Hn. simpl in Hn. apply list_elem_of_singleton in Hn as ->.
    vm_compute. reflexivity.
  - split; [exact Hps|].
    change (mkWorld posts []) with
      (mkWorld (mkEngine (roles posts) (policies posts)) []).
    rewrite Hcan. vm_compute. reflexivity.
Defined.

(** ** C8: the two resolvers *)

Lemma elem_of_insert_by_level a sorted r :
  r ∈ Alt.insert_by_level a sorted <-> r = a \/ r ∈ sorted.
Proof.
  induction sorted as [|b rest IH]; simpl.
  - rewrite list_elem_of_singleton, elem_of_nil. tauto.
  - destruct (0 <? Role.level b - Role.level a)%Z.
    + rewrite !elem_of_cons, IH. tauto.
    + rewrite !elem_of_cons. tauto.
Qed.

(** Sorting by level keeps the roles: it only reorders them. *)
Lemma elem_of_sort_by_level rs r : r ∈ Alt.sort_by_level rs <-> r ∈ rs.
Proof.
  unfold Alt.sort_by_level. induction rs as [|a rs IH]; simpl; [done|].
  rewrite elem_of_insert_by_level, elem_of_cons, IH. tauto.
Qed.

Lemma elem_of_addAll_roles rs : forall s p,
  p ∈ foldl (fun s role => Set_addAll s (Role.permissions role)) s rs <->
  p ∈ s \/ exists r, r ∈ rs /\ p ∈ Role.permissions r.
Proof.
  induction rs as [|a rs IH]; intros s p; simpl.
  - split; [by left|]. intros [?|(r & Hr & _)]; [done|]. by apply elem_of_nil in Hr.
  - rewrite IH, elem_of_Set_addAll. split.
    + intros [[?|?]|(r & Hr & Hp)]; [by left| |].
      * right. exists a. split; [by left|done].
      * right. exists r. split; [by right|done].
    + intros [?|(r & Hr & Hp)]; [by left; left|].
      apply elem_of_cons in Hr as [->|Hr]; [by left; right|].
      right. by exists r.
Qed.

Lemma NoDup_addAll_roles rs : forall s,
  NoDup s -> NoDup (foldl (fun s role => Set_addAll s (Role.permissions role)) s rs).
Proof.
  induction rs as [|a rs IH]; intros s Hs; simpl; [done|].
  by apply IH, NoDup_Set_addAll.
Qed.

Section Agreement.
Variable registry : gmap string Role.t.

Lemma agrees_refl w wa :
  Alt.visited wa = visitedRoles w -> agrees registry w w wa wa.
Proof.
  intros Hv. split; [done|done|]. exists []. rewrite app_nil_r. split; [done|].
  intros r. rewrite elem_of_nil. split; [done|]. by intros (n & ? & ? & _).
Qed.

Lemma agrees_trans w w' w'' wa wa' wa'' :
  agrees registry w w' wa wa' -> agrees registry w' w'' wa' wa'' -> agrees registry w w'' wa wa''.
Proof.
  intros [Hv Hmono (new & Hnew & Hin)] [Hv' Hmono' (new' & Hnew' & Hin')].
  split; [done|set_solver|].
  exists (new ++ new'). split; [by rewrite Hnew', Hnew, <- app_assoc|].
  intros r. rewrite elem_of_app, Hin, Hin'. split.
  - intros [(n & ? & ? & ?)|(n & ? & ? & ?)]; exists n; split_and!; try done;
      set_solver.
  - intros (n & ? & ? & ?).
    destruct (decide (n ∈ visitedRoles w')); [left|right]; by exists n.
Qed.

Lemma forEach_agrees (f : string -> Walk -> option Walk)
    (g : string -> Alt.Walk -> option Alt.Walk) :
  (forall name w w' wa,
     Alt.visited wa = visitedRoles w -> f name w = Some w' ->
     exists wa', g name wa = Some wa' /\ agrees registry w w' wa wa') ->
  forall names w w' wa,
    Alt.visited wa = visitedRoles w -> forEach f names w = Some w' ->
    exists wa', forEach g names wa = Some wa' /\ agrees registry w w' wa wa'.
Proof.
  intros Hfg names. induction names as [|name names IH];
    intros w w' wa Hv Hw'; simpl in *.
  - injection Hw' as <-. exists wa. split; [done|by apply agrees_refl].
  - destruct (f name w) as [w1|] eqn:Hf; [|done].
    destruct (Hfg _ _ _ _ Hv Hf) as (wa1 & -> & Hag1).
    destruct (IH w1 w' wa1 (agrees_visited _ _ _ _ _ Hag1) Hw') as (wa' & Hwa' & Hag).
    exists wa'. split; [done|]. by eapply agrees_trans.
Qed.

Lemma visit_agrees fuel : forall name w w' wa,
  Alt.visited wa = visitedRoles w ->
  visited registry fuel name w = Some w' ->
  exists wa', Alt.visit registry fuel name wa = Some wa' /\ agrees registry w w' wa wa'.
Proof.
  induction fuel as [|fuel IH]; intros name w w' wa Hv Hw'; [done|].
  simpl in *. rewrite Hv.
  case_bool_decide as Hseen.
  { injection Hw' as <-. exists wa. split; [done|by apply agrees_refl]. }
  destruct (registry !! name) as [role|] eqn:Hrole.
  - pose (wa1 := Alt.mkWalk ({[name]} ∪ visitedRoles w) (Alt.roles wa)).
    destruct (fun H => forEach_agrees _ _ IH (inherited role) _ w' wa1 H Hw')
      as (wa2 & Hwa2 & [Hv2 Hmono2 (new & Hnew & Hin)]); [reflexivity|].
    subst wa1. simpl in Hv2, Hmono2, Hnew, Hin. rewrite Hwa2.
    eexists. split; [done|].
    split; simpl; [done|set_solver|].
    exists (new ++ [role]). split; [by rewrite Hnew, <- app_assoc|].
    intros r. rewrite elem_of_app, Hin, list_elem_of_singleton. split.
    + intros [(n & ? & ? & ?)| ->].
      * exists n. split_and!; try done. set_solver.
      * exists name. split_and!; try done. set_solver.
    + intros (n & Hn & Hn' & Hr). destruct (decide (n = name)) as [->|Hne].
      * right. congruence.
      * left. exists n. split_and!; try done. set_solver.
  - injection Hw' as <-. eexists. split; [done|].
    split; simpl; [done|set_solver|].
    exists []. rewrite app_nil_r. split; [done|].
    intros r. rewrite elem_of_nil. split; [done|]. intros (n & Hn & Hn' & Hr).
    assert (n = name) as -> by set_solver. congruence.
Qed.

Lemma resolvePermissions_agrees subject ps :
  getPermissions registry subject = Some ps ->
  exists ps', Alt.resolvePermissions registry subject = Some ps' /\
              NoDup ps' /\ forall p, p ∈ ps' <-> p ∈ ps.
Proof.
  unfold getPermissions, walkRoles. intros Hps.
  destruct (forEach _ _ _) as [w|] eqn:Hw; [|done]. injection Hps as <-.
  pose (wa0 := Alt.mkWalk ∅ []).
  destruct (fun H => forEach_agrees _ _ (visit_agrees (S (size registry)))
                        (Subject.roles subject) _ w wa0 H Hw)
    as (wa & Hwa & [_ _ (new & Hnew & Hin)]); [reflexivity|].
  subst wa0. simpl in Hnew. subst new.
  destruct (walkRoles_walked registry subject (S (size registry)))
    as (w' & Hw' & Hwalked & _); [lia|].
  assert (w' = w) as -> by (unfold walkRoles in Hw'; congruence).
  unfold Alt.resolvePermissions, Alt.resolveRoles. rewrite Hwa. simpl.
  eexists. split; [done|]. split.
  - apply NoDup_Set_addAll, NoDup_addAll_roles, NoDup_Set_new.
  - intros p. rewrite elem_of_Set_addAll, elem_of_addAll_roles.
    rewrite (walked_prms _ _ _ _ Hwalked). simpl.
    rewrite elem_of_Set_new. setoid_rewrite elem_of_sort_by_level.
    setoid_rewrite Hin. simpl. split.
    + intros [[?|(r & (n & ? & ? & ?) & Hp)]|?]; [by left| |by left].
      right. by exists n, r.
    + intros [?|(n & r & ? & ? & ? & Hp)]; [by left; left|].
      left; right. exists r. split; [by exists n|done].
Qed.

End Agreement.

(** C8: for every registry and subject both resolvers return, with the
    same permissions in their sets (sorting the resolved roles by level
    only reorders them), and the [can] of the one engine ends as the
    [can] of the other does, in the same world. *)
Theorem resolvers_agree w subject permission context :
  (exists ps ps',
     getPermissions (roles (engine w)) subject = Some ps /\
     Alt.resolvePermissions (roles (engine w)) subject = Some ps' /\
     ps ≡ₚ ps') /\
  can subject permission context w = AltEngine.can subject permission context w.
Proof.
  destruct (getPermissions_effective (roles (engine w)) subject)
    as (ps & Hps & Hnodup & _).
  destruct (resolvePermissions_agrees _ subject ps Hps)
    as (ps' & Hps' & Hnodup' & Hsame).
  split.
  - exists ps, ps'. split_and!; [done|done|].
    apply NoDup_Permutation; [done|done|]. intros p. by rewrite Hsame.
  - unfold can, AltEngine.can.
    rewrite (can_with_resolved _ _ _ _ _ ps Hps).
    rewrite (can_with_resolved _ _ _ _ _ ps' Hps'). cbv zeta.
    assert (existsb (fun perm => Permission.match_ perm permission) ps
            = existsb (fun perm => Permission.match_ perm permission) ps') as ->;
      [|done].
    apply bool_eq_iff. rewrite !existsb_exists.
    split; intros (x & Hx & Hm); exists x; (split; [|done]);
      apply list_elem_of_In; apply list_elem_of_In in Hx; by apply Hsame.
Qed.

(** * Further properties of the code *)

(** ** Permission.match on particular patterns *)

Lemma match_refl pattern : Permission.match_ pattern pattern = true.
Proof. unfold Permission.match_. by rewrite String.eqb_refl. Qed.

Lemma walk_literal ps : forall qs,
  forallb (fun part => negb (is_wildcard part)) ps = true ->
  walk ps qs = true -> ps = qs.
Proof.
  induction ps as [|p ps IH]; intros qs Hlit Hwalk; simpl in *.
  - by destruct qs.
  - apply andb_true_iff in Hlit as [Hp Hlit].
    unfold is_wildcard in Hp. apply negb_true_iff, orb_false_iff in Hp as [Hs Hss].
    rewrite Hs, Hss in Hwalk.
    destruct qs as [|q qs]; [done|].
    destruct (String.eqb q ""); [done|].
    destruct (String.eqb_spec p q) as [->|]; [|done].
    f_equal. by apply IH.
Qed.

(** X1: a pattern without wildcard segments matches the identical string
    and nothing else. *)
Theorem match_literal_pattern pattern permission :
  literal_pattern pattern = true ->
  Permission.match_ pattern permission = true <-> pattern = permission.
Proof.
  intros Hlit. split.
  - rewrite match_unfold. intros Hm. apply orb_true_iff in Hm as [Hm|Hm].
    + by apply String.eqb_eq.
    + apply (split_inj ":"). by apply walk_literal.
  - intros ->. apply match_refl.
Qed.

Lemma match_literal_pattern_witness :
  Permission.match_ "post:edit" "post:edit:draft" = true <->
  "post:edit" = "post:edit:draft".
Proof. apply match_literal_pattern. reflexivity. Defined.

Lemma walk_globstar ps : forall rest qs,
  forallb plain ps = true ->
  walk (ps ++ "**" :: rest) qs = true <-> ps `prefix_of` qs.
Proof.
  induction ps as [|p ps IH]; intros rest qs Hplain; simpl in *.
  - split; [intros _; apply prefix_nil|done].
  - apply andb_true_iff in Hplain as [Hp Hplain].
    unfold plain, nonempty, is_wildcard in Hp.
    apply andb_true_iff in Hp as [Hne Hp].
    apply negb_true_iff in Hne.
    apply negb_true_iff, orb_false_iff in Hp as [Hs Hss].
    rewrite Hs, Hss.
    destruct qs as [|q qs].
    { split; [done|]. intros H. by apply prefix_nil_not in H. }
    destruct (String.eqb_spec q "") as [->|Hq].
    { split; [done|]. intros H. apply prefix_cons_inv_1 in H as ->.
      by rewrite String.eqb_refl in Hne. }
    destruct (String.eqb_spec p q) as [->|Hpq].
    + rewrite IH by done. split; [apply prefix_cons|apply prefix_cons_inv_2].
    + split; [done|]. intros H. by apply prefix_cons_inv_1 in H.
Qed.

(** X2: when the segments of the pattern before its first [**] are
    non-empty literals, the pattern matches exactly the permissions whose
    segments begin with them; what follows the [**] is not looked at. *)
Theorem match_globstar_prefix pattern permission ps rest :
  split ":" pattern = ps ++ "**" :: rest ->
  forallb plain ps = true ->
  Permission.match_ pattern permission = true <->
  ps `prefix_of` split ":" permission.
Proof.
  intros Hsplit Hplain. rewrite match_unfold, Hsplit, orb_true_iff.
  rewrite walk_globstar by done. split; [|by right].
  intros [Heq|?]; [|done].
  apply String.eqb_eq in Heq as <-. rewrite Hsplit. by exists ("**" :: rest).
Qed.

Lemma match_globstar_prefix_witness :
  Permission.match_ "org:team:**:read" "org:team" = true <->
  ["org"; "team"] `prefix_of` split ":" "org:team".
Proof.
  apply (match_globstar_prefix "org:team:**:read" "org:team"
           ["org"; "team"] ["read"]); reflexivity.
Defined.

Lemma beyond_empty_segment pre : forall post,
  "**" ∉ pre -> beyond (pre ++ "" :: post) = false.
Proof.
  induction pre as [|p pre IH]; intros post Hno; simpl; [done|].
  apply not_elem_of_cons in Hno as [Hp Hno].
  rewrite (proj2 (String.eqb_neq p "**")) by done.
  destruct (String.eqb p "*"); [by apply IH|done].
Qed.

Lemma walk_empty_segment pre : forall post qs,
  "**" ∉ pre -> walk (pre ++ "" :: post) qs = false.
Proof.
  induction pre as [|p pre IH]; intros post qs Hno; simpl.
  - destruct qs as [|q qs]; [done|]. by destruct q.
  - apply not_elem_of_cons in Hno as [Hp Hno].
    rewrite (proj2 (String.eqb_neq p "**")) by done.
    destruct qs as [|q qs].
    + destruct (String.eqb p "*"); [by apply beyond_empty_segment|done].
    + rewrite IH by done. destruct (String.eqb p "*"); [done|].
      destruct (String.eqb q ""); [done|]. by destruct (String.eqb p q).
Qed.

(** X3: a pattern with an empty segment and no [**] before it (a pattern
    that ends in the delimiter, for one) matches the identical string and
    nothing else: at the empty segment the loop returns false for every
    permission. *)
Theorem match_empty_segment pattern permission i :
  split ":" pattern !! i = Some "" ->
  "**" ∉ take i (split ":" pattern) ->
  Permission.match_ pattern permission = true <-> pattern = permission.
Proof.
  intros Hi Hno. split; [|intros ->; apply match_refl].
  rewrite match_unfold.
  rewrite <- (take_drop_middle _ _ _ Hi) at 1.
  rewrite walk_empty_segment, orb_false_r by done.
  apply String.eqb_eq.
Qed.

Lemma match_empty_segment_witness :
  Permission.match_ "user:" "user:read" = true <-> "user:" = "user:read".
Proof.
  apply (match_empty_segment "user:" "user:read" 1).
  - reflexivity.
  - simpl. set_solver.
Defined.

(** ** How [can] ends, and what it depends on *)

(** The two resolvers and the rest of [can]: the call ends according to
    whether some resolved pattern matches and to the predicate stored
    under the requested permission. *)
Lemma can_with_same resolver1 resolver2 subject requested context w1 w2 ps1 ps2 :
  resolver1 (roles (engine w1)) subject = Some ps1 ->
  resolver2 (roles (engine w2)) subject = Some ps2 ->
  existsb (fun perm => Permission.match_ perm requested) ps1
  = existsb (fun perm => Permission.match_ perm requested) ps2 ->
  policies (engine w1) !! requested = policies (engine w2) !! requested ->
  fst (can_with resolver1 subject requested context w1)
  = fst (can_with resolver2 subject requested context w2).
Proof.
  intros Hps1 Hps2 Hsome Hpol.
  rewrite (can_with_resolved _ _ _ _ _ ps1 Hps1).
  rewrite (can_with_resolved _ _ _ _ _ ps2 Hps2). cbv zeta.
  rewrite Hsome, Hpol. destruct (negb _); [done|].
  destruct (policies (engine w2) !! requested) as [policy|]; [|done].
  by destruct (policy _) as [[|]|err].
Qed.

Lemma can_same_coverage subject requested context w1 w2 :
  (covered (roles (engine w1)) subject requested
   <-> covered (roles (engine w2)) subject requested) ->
  policies (engine w1) !! requested = policies (engine w2) !! requested ->
  fst (can subject requested context w1) = fst (can subject requested context w2).
Proof.
  intros Hcov Hpol.
  destruct (getPermissions_covered (roles (engine w1)) subject requested)
    as (ps1 & Hps1 & Hcov1).
  destruct (getPermissions_covered (roles (engine w2)) subject requested)
    as (ps2 & Hps2 & Hcov2).
  apply (can_with_same _ _ _ _ _ _ _ ps1 ps2); try done.
  apply bool_eq_iff. by rewrite Hcov1, Hcov2.
Qed.


(** X4: when [can] resolves, the result carries the requested permission;
    it is an allowance without a reason or a denial with one of the two
    reasons; and the reason is "Permission not found in subject
    roles/permissions" exactly when no pattern of the effective set
    matches the request. *)
Theorem can_result_shape w subject requested context auth :
  fst (can subject requested context w) = Resolved auth ->
  permission auth = requested /\
  (allowed auth = true /\ reason auth = None \/
   allowed auth = false /\
   (reason auth = Some not_found \/ reason auth = Some denied_by_policy)) /\
  (reason auth = Some not_found <->
   ~ covered (roles (engine w)) subject requested).
Proof.
  destruct (getPermissions_covered (roles (engine w)) subject requested)
    as (ps & Hps & Hcov).
  unfold can. rewrite (can_with_resolved _ _ _ _ _ ps Hps). cbv zeta.
  rewrite <- Hcov.
  destruct (existsb _ ps); simpl.
  - destruct (policies (engine w) !! requested) as [policy|].
    + destruct (policy _) as [[|]|err]; simpl; intros [= <-]; simpl;
        (split; [done|]); (split; [tauto|]); split; (done || congruence).
    + intros [= <-]. simpl. split; [done|]. split; [tauto|]. split; done.
  - intros [= <-]. simpl. split; [done|]. split; [tauto|]. split; [|done].
    intros _. discriminate.
Qed.

Lemma can_result_shape_witness :
  permission (mkAuth false (Some denied_by_policy) "post:edit") = "post:edit".
Proof.
  apply (can_result_shape (mkWorld posts []) user1 "post:edit"
           (authoredBy "user-2")).
  vm_compute. reflexivity.
Defined.

(** X5: registering a predicate under one permission string changes
    nothing for a request of any other string, even one the first string
    matches as a pattern: the lookup is by the requested string. *)
Theorem addPolicy_other_permission w key policyCallback subject requested context :
  key <> requested ->
  fst (can subject requested context (snd (addPolicy key policyCallback w)))
  = fst (can subject requested context w).
Proof.
  intros Hne. apply can_same_coverage; simpl; [done|].
  by apply lookup_insert_ne.
Qed.

Lemma addPolicy_other_permission_witness :
  fst (can (holding ["editor"]) "post:edit" None
         (snd (addPolicy "post:*" failing (mkWorld (blog []) []))))
  = fst (can (holding ["editor"]) "post:edit" None (mkWorld (blog []) [])).
Proof. apply addPolicy_other_permission. discriminate. Defined.

(** ** Registering roles *)

Section Registering.
Variable registry : gmap string Role.t.
Variable role : Role.t.
Variable roots : list string.
Hypothesis unreached : ~ reachable registry roots (Role.name role).

Lemma insert_unreached_reachable n :
  reachable (<[Role.name role := role]> registry) roots n
  <-> reachable registry roots n.
Proof.
  split.
  - induction 1 as [n Hn|n m _ IH (r & Hr & Hm)]; [by apply reachable_root|].
    eapply reachable_step; [done|]. exists r. split; [|done].
    rewrite lookup_insert_ne in Hr; [done|]. by intros <-.
  - induction 1 as [n Hn|n m Hreach IH (r & Hr & Hm)]; [by apply reachable_root|].
    eapply reachable_step; [done|]. exists r. split; [|done].
    rewrite lookup_insert_ne; [done|]. by intros <-.
Qed.

Lemma insert_unreached_effective subject p :
  Subject.roles subject = roots ->
  effective (<[Role.name role := role]> registry) subject p
  <-> effective registry subject p.
Proof.
  intros Hroots. unfold effective. rewrite Hroots.
  setoid_rewrite insert_unreached_reachable.
  split; (intros [?|(n & r & Hn & Hr & Hp)]; [by left|]); right; exists n, r;
    (split_and!; [done| |done]).
  - rewrite lookup_insert_ne in Hr; [done|]. by intros <-.
  - rewrite lookup_insert_ne; [done|]. by intros <-.
Qed.

End Registering.

(** Whether a name is reached can be computed by the walk. *)
Lemma reachable_computed registry roots n :
  reachable registry roots n <->
  (fun w => bool_decide (n ∈ visitedRoles w))
    <$> walkRoles (S (size registry)) registry (Subject.mk "" roots None None)
  = Some true.
Proof.
  destruct (walkRoles_walked registry (Subject.mk "" roots None None)
              (S (size registry))) as (w & Hw & _); [lia|].
  rewrite Hw. simpl.
  rewrite <- (walkRoles_visited registry (Subject.mk "" roots None None)
                (S (size registry)) w n) by (done || lia).
  split.
  - intros Hn. by rewrite bool_decide_eq_true_2.
  - intros [= Hn]. by apply bool_decide_eq_true in Hn.
Qed.

(** X6: registering a role under a name that the subject's roles do not
    reach through the inherits lists (the name is held by the subject
    neither directly nor by inheritance, registered or not) changes no
    decision for that subject. *)
Theorem addRole_unreached w role subject requested context :
  ~ reachable (roles (engine w)) (Subject.roles subject) (Role.name role) ->
  fst (can subject requested context (snd (addRole role w)))
  = fst (can subject requested context w).
Proof.
  intros Hunreached. apply can_same_coverage; simpl; [|done].
  unfold covered.
  by setoid_rewrite (insert_unreached_effective _ _ _ Hunreached subject).
Qed.

Lemma addRole_unreached_witness :
  fst (can (holding ["viewer"]) "post:write" None
         (snd (addRole roleA (mkWorld (blog ["viewer"]) []))))
  = fst (can (holding ["viewer"]) "post:write" None
           (mkWorld (blog ["viewer"]) [])).
Proof.
  apply addRole_unreached. rewrite reachable_computed. vm_compute. discriminate.
Defined.

(** X7: after [addRole(role)], a subject that holds the role's name is
    granted every permission one of the role's patterns matches, when no
    predicate is registered under it, whatever the registry held
    before. *)
Theorem addRole_grants w role subject pattern requested context :
  Role.name role ∈ Subject.roles subject ->
  pattern ∈ Role.permissions role ->
  Permission.match_ pattern requested = true ->
  policies (engine w) !! requested = None ->
  fst ((let* _ := addRole role in can subject requested context) w)
  = Resolved (mkAuth true None requested).
Proof.
  intros Hheld Hpattern Hmatch Hnone. unfold bind. simpl.
  set (w' := mkWorld _ _).
  destruct (getPermissions_covered (roles (engine w')) subject requested)
    as (ps & Hps & Hcov).
  unfold can. rewrite (can_with_resolved _ _ _ _ _ ps Hps). cbv zeta.
  rewrite (proj2 Hcov).
  - simpl. by rewrite Hnone.
  - exists pattern. split; [|done]. right. exists (Role.name role), role.
    split_and!; [by apply reachable_root|apply lookup_insert_eq|done].
Qed.

Lemma addRole_grants_witness :
  fst ((let* _ := addRole postViewer in
        can (holding ["viewer"]) "post:read" None) (mkWorld new_RBACEngine []))
  = Resolved (mkAuth true None "post:read").
Proof.
  apply (addRole_grants _ postViewer (holding ["viewer"]) "post:read").
  - simpl. set_solver.
  - simpl. set_solver.
  - reflexivity.
  - reflexivity.
Defined.

(** X8: registering again under the same name or permission string
    replaces the earlier registration, and registrations under different
    keys, or in the two registries, can be made in either order. *)
Theorem registrations_compose w r1 r2 key1 key2 f1 f2 :
  (Role.name r1 = Role.name r2 ->
   snd (addRole r2 (snd (addRole r1 w))) = snd (addRole r2 w)) /\
  (Role.name r1 <> Role.name r2 ->
   snd (addRole r2 (snd (addRole r1 w)))
   = snd (addRole r1 (snd (addRole r2 w)))) /\
  (key1 = key2 ->
   snd (addPolicy key2 f2 (snd (addPolicy key1 f1 w)))
   = snd (addPolicy key2 f2 w)) /\
  (key1 <> key2 ->
   snd (addPolicy key2 f2 (snd (addPolicy key1 f1 w)))
   = snd (addPolicy key1 f1 (snd (addPolicy key2 f2 w)))) /\
  snd (addPolicy key1 f1 (snd (addRole r1 w)))
  = snd (addRole r1 (snd (addPolicy key1 f1 w))).
Proof.
  unfold addRole, addPolicy, update. simpl. split_and!.
  - intros ->. by rewrite insert_insert_eq.
  - intros Hne. by rewrite insert_insert_ne.
  - intros ->. by rewrite insert_insert_eq.
  - intros Hne. by rewrite insert_insert_ne.
  - done.
Qed.

Lemma registrations_compose_witness :
  snd (addRole (postEditor ["viewer"])
         (snd (addRole (postEditor []) (mkWorld new_RBACEngine []))))
  = snd (addRole (postEditor ["viewer"]) (mkWorld new_RBACEngine [])).
Proof.
  destruct (registrations_compose (mkWorld new_RBACEngine [])
              (postEditor []) (postEditor ["viewer"]) "" "" always always)
    as (Hsame & _).
  apply Hsame. reflexivity.
Defined.

(** ** Engines built by calls *)




(** ** More roles, other levels *)

Lemma covered_more registry s s' requested :
  Subject.roles s ⊆ Subject.roles s' ->
  default [] (Subject.permissions s) ⊆ default [] (Subject.permissions s') ->
  covered registry s requested -> covered registry s' requested.
Proof.
  intros Hroles Hdirect (pattern & Heff & Hm). exists pattern. split; [|done].
  destruct Heff as [Hp|(n & r & Hn & Hr & Hp)].
  - left. by apply Hdirect.
  - right. exists n, r. split_and!; try done.
    eapply reachable_mono; [|done]. intros root Hroot.
    by apply reachable_root, Hroles.
Qed.

(** X10: nothing that a subject holds takes a permission away: when
    [can] does not find the permission for a subject, it does not find it
    for any subject with fewer roles and fewer direct permissions. *)
Theorem can_more_grants w s s' requested context context' :
  Subject.roles s ⊆ Subject.roles s' ->
  default [] (Subject.permissions s) ⊆ default [] (Subject.permissions s') ->
  fst (can s' requested context' w)
  = Resolved (mkAuth false (Some not_found) requested) ->
  fst (can s requested context w)
  = Resolved (mkAuth false (Some not_found) requested).
Proof.
  intros Hroles Hdirect.
  destruct (getPermissions_covered (roles (engine w)) s requested)
    as (ps & Hps & Hcov).
  destruct (getPermissions_covered (roles (engine w)) s' requested)
    as (ps' & Hps' & Hcov').
  unfold can.
  rewrite (can_with_resolved _ _ _ _ _ ps Hps).
  rewrite (can_with_resolved _ _ _ _ _ ps' Hps'). cbv zeta.
  destruct (existsb _ ps') eqn:Hsome'; simpl.
  - destruct (policies (engine w) !! requested) as [policy|]; [|done].
    by destruct (policy _) as [[|]|err].
  - intros _. destruct (existsb _ ps) eqn:Hsome; [|done].
    pose proof (proj1 Hcov eq_refl) as Hcovered.
    apply (covered_more _ s s') in Hcovered; try done.
    by apply Hcov' in Hcovered.
Qed.

Lemma can_more_grants_witness :
  fst (can (holding []) "post:write" None (mkWorld (blog []) []))
  = Resolved (mkAuth false (Some not_found) "post:write").
Proof.
  apply (can_more_grants _ (holding []) (holding ["viewer"]) "post:write"
           None None).
  - simpl. set_solver.
  - simpl. set_solver.
  - vm_compute. reflexivity.
Defined.

Lemma with_levels_same newLevel newDenies registry :
  same_registry (with_levels newLevel newDenies registry) registry.
Proof.
  intros n. unfold with_levels. rewrite lookup_fmap.
  destruct (registry !! n); constructor. split; [done|]. by intros m.
Qed.

(** X11: the levels and the denies lists of the roles decide nothing, in
    either engine: with every level and denies list replaced, [can] ends
    as before, also in the engine that sorts the resolved roles by
    level. *)
Theorem levels_irrelevant newLevel newDenies registry registered log
    subject requested context :
  fst (can subject requested context
         (mkWorld (mkEngine (with_levels newLevel newDenies registry)
                     registered) log))
  = fst (can subject requested context
           (mkWorld (mkEngine registry registered) log)) /\
  fst (AltEngine.can subject requested context
         (mkWorld (mkEngine (with_levels newLevel newDenies registry)
                     registered) log))
  = fst (AltEngine.can subject requested context
           (mkWorld (mkEngine registry registered) log)).
Proof.
  assert (covered (with_levels newLevel newDenies registry) subject requested
          <-> covered registry subject requested) as Hcovered.
  { apply same_registry_covered; [apply with_levels_same|done|done]. }
  split.
  - by apply can_same_coverage.
  - destruct (getPermissions_covered (with_levels newLevel newDenies registry)
                subject requested) as (ps1 & Hps1 & Hcov1).
    destruct (getPermissions_covered registry subject requested)
      as (ps2 & Hps2 & Hcov2).
    destruct (resolvePermissions_agrees _ subject ps1 Hps1)
      as (ps1' & Hps1' & _ & Hsame1).
    destruct (resolvePermissions_agrees _ subject ps2 Hps2)
      as (ps2' & Hps2' & _ & Hsame2).
    apply (can_with_same _ _ _ _ _ _ _ ps1' ps2'); try done.
    apply bool_eq_iff. rewrite <- Hcovered in Hcov2. rewrite <- Hcov2 in Hcov1.
    rewrite !existsb_exists in *.
    split; intros (x & Hx & Hm).
    + destruct (proj1 Hcov1) as (y & Hy & Hmy).
      { exists x. split; [|done]. apply list_elem_of_In, Hsame1.
        by apply list_elem_of_In. }
      exists y. split; [|done]. apply list_elem_of_In, Hsame2.
      by apply list_elem_of_In.
    + destruct (proj2 Hcov1) as (y & Hy & Hmy).
      { exists x. split; [|done]. apply list_elem_of_In, Hsame2.
        by apply list_elem_of_In. }
      exists y. split; [|done]. apply list_elem_of_In, Hsame1.
      by apply list_elem_of_In.
Qed.

(** ** resolveRoles *)

Lemma insert_by_level_Permutation a sorted :
  Alt.insert_by_level a sorted ≡ₚ a :: sorted.
Proof.
  induction sorted as [|b rest IH]; simpl; [done|].
  destruct (0 <? Role.level b - Role.level a)%Z; [|done].
  rewrite IH. apply Permutation_swap.
Qed.

Lemma sort_by_level_Permutation rs : Alt.sort_by_level rs ≡ₚ rs.
Proof.
  unfold Alt.sort_by_level. induction rs as [|a rs IH]; simpl; [done|].
  by rewrite insert_by_level_Permutation, IH.
Qed.

Lemma insert_by_level_sorted a sorted :
  StronglySorted not_below sorted ->
  StronglySorted not_below (Alt.insert_by_level a sorted).
Proof.
  induction 1 as [|b rest Hrest IH Hb]; simpl.
  - repeat constructor.
  - destruct (Z.ltb_spec 0 (Role.level b - Role.level a)) as [Hlt|Hge].
    + constructor; [done|].
      rewrite insert_by_level_Permutation. constructor; [|done].
      unfold not_below. lia.
    + constructor; [by constructor|]. constructor; [unfold not_below; lia|].
      eapply Forall_impl; [exact Hb|]. unfold not_below. intros c Hc. lia.
Qed.

Lemma sort_by_level_sorted rs : StronglySorted not_below (Alt.sort_by_level rs).
Proof.
  unfold Alt.sort_by_level. induction rs as [|a rs IH]; simpl; [constructor|].
  by apply insert_by_level_sorted.
Qed.

Section Collecting.
Variable registry : gmap string Role.t.

Lemma collected_refl wa : collected registry wa wa.
Proof.
  split; [done|]. exists [], []. rewrite app_nil_r.
  split_and!; [done|constructor|constructor|].
  intros n. rewrite elem_of_nil. tauto.
Qed.

Lemma collected_trans wa wa' wa'' :
  collected registry wa wa' -> collected registry wa' wa'' ->
  collected registry wa wa''.
Proof.
  intros [Hmono (names & new & Hnew & Hlookup & Hnodup & Hin)]
         [Hmono' (names' & new' & Hnew' & Hlookup' & Hnodup' & Hin')].
  split; [set_solver|].
  exists (names ++ names'), (new ++ new'). split_and!.
  - by rewrite Hnew', Hnew, <- app_assoc.
  - by apply Forall2_app.
  - apply NoDup_app. split_and!; [done| |done].
    intros n Hn Hn'. apply Hin in Hn. apply Hin' in Hn'. tauto.
  - intros n. rewrite elem_of_app, Hin, Hin'. split.
    + intros [(? & ? & ?)|(? & ? & ?)]; split_and!; try done; set_solver.
    + intros (? & ? & ?).
      destruct (decide (n ∈ Alt.visited wa')); [left|right]; done.
Qed.

Lemma forEach_collected (g : string -> Alt.Walk -> option Alt.Walk) :
  (forall name wa wa', g name wa = Some wa' -> collected registry wa wa') ->
  forall names wa wa',
    forEach g names wa = Some wa' -> collected registry wa wa'.
Proof.
  intros Hg names. induction names as [|name names IH]; intros wa wa' Hwa';
    simpl in Hwa'.
  - injection Hwa' as <-. apply collected_refl.
  - destruct (g name wa) as [wa1|] eqn:Hg1; [|done].
    eapply collected_trans; [by eapply Hg|by eapply IH].
Qed.

Lemma visit_collected fuel : forall name wa wa',
  Alt.visit registry fuel name wa = Some wa' -> collected registry wa wa'.
Proof.
  induction fuel as [|fuel IH]; intros name wa wa' Hwa'; [done|].
  simpl in Hwa'. case_bool_decide as Hseen.
  { injection Hwa' as <-. apply collected_refl. }
  destruct (registry !! name) as [role|] eqn:Hrole.
  - destruct (forEach _ _ _) as [wa2|] eqn:Hwa2; [|done].
    injection Hwa' as <-.
    destruct (forEach_collected _ IH _ _ _ Hwa2)
      as [Hmono (names & new & Hnew & Hlookup & Hnodup & Hin)].
    simpl in *. split; simpl; [set_solver|].
    exists (names ++ [name]), (new ++ [role]). split_and!.
    + by rewrite Hnew, <- app_assoc.
    + apply Forall2_app; [done|]. by repeat constructor.
    + apply NoDup_app. split_and!; [done| |apply NoDup_singleton].
      intros n Hn Hn'. apply list_elem_of_singleton in Hn' as ->.
      apply Hin in Hn. set_solver.
    + intros n. rewrite elem_of_app, Hin, list_elem_of_singleton. split.
      * intros [(? & ? & ?)| ->]; split_and!; try done; set_solver.
      * intros (? & ? & ?). destruct (decide (n = name)); [by right|].
        left. split_and!; try done. set_solver.
  - injection Hwa' as <-. split; simpl; [set_solver|].
    exists [], []. rewrite app_nil_r. split_and!; [done|constructor|constructor|].
    intros n. rewrite elem_of_nil. split; [done|]. intros (Hn & Hn' & [r Hr]).
    assert (n = name) as -> by set_solver. congruence.
Qed.

End Collecting.

(** X12: [resolveRoles] returns for every registry and list of names; the
    roles it returns are those registered under the names reached from
    the list through inherits lists, one for each such name, and no role
    comes before one of a higher level. *)
Theorem resolveRoles_sorted registry roleNames :
  exists resolved names found,
    Alt.resolveRoles registry roleNames = Some resolved /\
    StronglySorted not_below resolved /\
    resolved ≡ₚ found /\
    Forall2 (fun n r => registry !! n = Some r) names found /\
    NoDup names /\
    forall n, n ∈ names <->
      reachable registry roleNames n /\ is_Some (registry !! n).
Proof.
  set (subject := Subject.mk "" roleNames None None).
  destruct (walkRoles_walked registry subject (S (size registry)))
    as (w & Hw & _ & _); [lia|].
  pose (wa0 := Alt.mkWalk ∅ []).
  destruct (fun H => forEach_agrees registry _ _
                       (visit_agrees registry (S (size registry)))
                       roleNames _ w wa0 H Hw)
    as (wa & Hwa & [Hvisited _ _]); [reflexivity|].
  destruct (forEach_collected registry _
              (visit_collected registry (S (size registry))) _ _ _ Hwa)
    as [_ (names & found & Hfound & Hlookup & Hnodup & Hin)].
  subst wa0. simpl in Hfound, Hin.
  exists (Alt.sort_by_level (Alt.roles wa)), names, found.
  unfold Alt.resolveRoles. rewrite Hwa. simpl. split_and!; try done.
  - apply sort_by_level_sorted.
  - rewrite Hfound. apply sort_by_level_Permutation.
  - intros n. rewrite Hin, Hvisited.
    rewrite (walkRoles_visited registry subject (S (size registry)) w n)
      by (done || lia).
    simpl. set_solver.
Qed.

(** ** resolvePermissions *)

Lemma Set_addAll_present xs : forall s,
  (forall x, x ∈ xs -> x ∈ s) -> Set_addAll s xs = s.
Proof.
  unfold Set_addAll. induction xs as [|x xs IH]; intros s Hxs; simpl; [done|].
  unfold Set_add at 2. rewrite bool_decide_eq_true_2 by (apply Hxs; by left).
  apply IH. intros y Hy. apply Hxs. by right.
Qed.

(** X13: the last line of [resolvePermissions], which adds
    [subject.permissions] a second time, never changes the set: not its
    elements and not their order. *)
Theorem resolvePermissions_second_pass registry subject :
  Alt.resolvePermissions registry subject
  = resolvePermissions_once registry subject.
Proof.
  unfold Alt.resolvePermissions, resolvePermissions_once.
  destruct (Alt.resolveRoles registry (Subject.roles subject)) as [resolved|];
    [|done].
  simpl. f_equal. apply Set_addAll_present.
  intros x Hx. apply elem_of_addAll_roles. left. by apply elem_of_Set_new.
Qed.

(** ** Patterns of single wildcards *)

Lemma beyond_stars ps : Forall (fun p => p = "*") ps -> beyond ps = false.
Proof. induction 1 as [|p ps -> _ IH]; simpl; done. Qed.

Lemma walk_stars ps : forall qs,
  Forall (fun p => p = "*") ps ->
  walk ps qs = true <-> length qs = length ps.
Proof.
  induction ps as [|p ps IH]; intros qs Hstars; simpl.
  - destruct qs; simpl; split; (done || lia).
  - apply Forall_cons in Hstars as [-> Hstars]. simpl.
    destruct qs as [|q qs]; simpl.
    + rewrite beyond_stars by done. split; (done || lia).
    + rewrite IH by done. lia.
Qed.

(** X14: a pattern all of whose segments are [*] matches exactly the
    strings with as many segments, whatever the segments are, the empty
    string among them. *)
Theorem match_stars pattern permission :
  Forall (fun p => p = "*") (split ":" pattern) ->
  Permission.match_ pattern permission = true <->
  length (split ":" permission) = length (split ":" pattern).
Proof.
  intros Hstars. rewrite match_unfold, orb_true_iff, walk_stars by done.
  split; [|by right]. intros [Heq|?]; [|done].
  by apply String.eqb_eq in Heq as ->.
Qed.

Lemma match_stars_witness :
  Permission.match_ "*:*" ":" = true <->
  length (split ":" ":") = length (split ":" "*:*").
Proof. apply match_stars. simpl. repeat constructor. Defined.
